(** * Containerized osbuild-composer entrypoint: socket activation and supervision

    A shallow embedding of [containers/osbuild-composer/entrypoint.py].  The
    supervisor prepares the listening sockets of the enabled APIs, hands them
    to [osbuild-composer] following the systemd socket-activation protocol,
    spawns the helper processes, waits for the composer and finally winds
    everything down.

    The Python code is effectful throughout: it mutates [os.environ], opens
    descriptors, forks children and reacts to exceptions.  It is embedded in
    a small monad carrying the supervisor's state, the result or the raised
    exception, and the list of observable operating-system events. *)

From stdpp Require Import gmap strings list pretty.

Open Scope string_scope.
Open Scope nat_scope.
Open Scope list_scope.
Open Scope stdpp_scope.

(** ** Python-side data *)

(** The exceptions the entrypoint can meet.  [KeyboardInterrupt] is the only
    one the code tells apart; everything else ends in the bare [except:]. *)
Inductive exn := KeyboardInterrupt | AssertionError | OSError | RuntimeError.

Inductive Result (A : Type) :=
| Ok (a : A)
| Raise (e : exn).
Arguments Ok {A} a.
Arguments Raise {A} e.

(** [argparse.Namespace] as produced by [Cli._parse_args]. *)
Record Namespace := {
  builtin_worker : bool;
  composer_api : bool;
  composer_api_port : Z;
  local_worker_api : bool;
  remote_worker_api : bool;
  weldr_api : bool;
  dnf_json : bool;
  dnf_json_port : Z
}.

(** The three programs the entrypoint spawns, named after the local variables
    [proc_composer], [proc_worker] and [proc_dnf_json] of [Cli.run]. *)
Inductive Child := Composer | Worker | DnfJson.

(** The five places of the source where a socket is created. *)
Inductive SockSite :=
  WeldrSock | ComposerApiSock | LocalWorkerSock | RemoteWorkerSock | DnfJsonSock.

Inductive family := AF_UNIX | AF_INET6.
Inductive sockopt := SO_REUSEADDR | IPV6_V6ONLY.
Inductive sockaddr :=
| AddrUnix (path : string)
| AddrInet6 (host : string) (port : Z).
Inductive signal := SIGTERM | SIGKILL.

Record socket := { fileno : nat; sock_family : family }.

(** What a spawned program sees when it starts running: its own process
    identifier, its command line, working directory and environment, and the
    descriptors handed down through [pass_fds] (next to the three standard
    streams, which every child keeps). *)
Record Image := {
  im_pid : nat;
  im_argv : list string;
  im_cwd : string;
  im_env : gmap string string;
  im_pass_fds : list nat
}.

(** ** Observable events *)

Inductive Event :=
| EStderr (msg : string)
| ESocket (fd : nat) (f : family)
| ESetsockopt (fd : nat) (opt : sockopt) (v : Z)
| EBind (fd : nat) (a : sockaddr)
| EListen (fd : nat) (backlog : option nat)
| EClose (fd : nat)
| EFork (c : Child) (pid : nat)
| EPutenv (pid : nat) (k v : string)
| EExec (c : Child) (img : Image)
| ESignal (c : Child) (sig : signal)
| EReap (c : Child) (code : Z).

(** ** The world outside the program

    Every call into the operating system made by the entrypoint has a call
    site; [fault] says which call sites raise instead of taking effect.  The
    program has no loop, so each site is reached at most once per run. *)
Inductive point :=
| at_socket (k : SockSite)
| at_bind (k : SockSite)
| at_listen (k : SockSite)
| at_Popen (c : Child)
| at_wait (c : Child)            (* try body, lines 314, 319, 324 *)
| at_terminate (c : Child)       (* try body, lines 318, 323 *)
| at_int_terminate (c : Child)   (* except KeyboardInterrupt, lines 329-335 *)
| at_int_wait (c : Child)        (* except KeyboardInterrupt, lines 330-336 *)
| at_kill (c : Child).           (* bare except, lines 339-343 *)

Record Oracle := {
  fault : point → option exn;
  exit_status : Child → Z;
  fork_pid : Child → nat
}.

(** ** Supervisor state *)

(** A [subprocess.Popen] object: the child's pid and the cached return code. *)
Record Popen_obj := { pid : nat; returncode : option Z }.

(** [environ] is [os.environ]; [fdtable] the open descriptors of the
    supervisor; [_exitstack] the callbacks registered on [self._exitstack]
    (most recent first); the remaining fields are the local variables of
    [Cli.run], which its exception handlers read. *)
Record State := {
  environ : gmap string string;
  fdtable : list nat;
  _exitstack : list socket;
  proc_composer : option Popen_obj;
  proc_worker : option Popen_obj;
  proc_dnf_json : option Popen_obj;
  res : Z
}.

Definition set_environ (v : gmap string string) (s : State) : State :=
  {| environ := v; fdtable := fdtable s; _exitstack := _exitstack s;
     proc_composer := proc_composer s; proc_worker := proc_worker s;
     proc_dnf_json := proc_dnf_json s; res := res s |}.

Definition set_fdtable (v : list nat) (s : State) : State :=
  {| environ := environ s; fdtable := v; _exitstack := _exitstack s;
     proc_composer := proc_composer s; proc_worker := proc_worker s;
     proc_dnf_json := proc_dnf_json s; res := res s |}.

Definition set_exitstack (v : list socket) (s : State) : State :=
  {| environ := environ s; fdtable := fdtable s; _exitstack := v;
     proc_composer := proc_composer s; proc_worker := proc_worker s;
     proc_dnf_json := proc_dnf_json s; res := res s |}.

Definition set_res (v : Z) (s : State) : State :=
  {| environ := environ s; fdtable := fdtable s; _exitstack := _exitstack s;
     proc_composer := proc_composer s; proc_worker := proc_worker s;
     proc_dnf_json := proc_dnf_json s; res := v |}.

Definition slot (c : Child) (s : State) : option Popen_obj :=
  match c with
  | Composer => proc_composer s
  | Worker => proc_worker s
  | DnfJson => proc_dnf_json s
  end.

Definition set_slot (c : Child) (v : option Popen_obj) (s : State) : State :=
  match c with
  | Composer =>
      {| environ := environ s; fdtable := fdtable s; _exitstack := _exitstack s;
         proc_composer := v; proc_worker := proc_worker s;
         proc_dnf_json := proc_dnf_json s; res := res s |}
  | Worker =>
      {| environ := environ s; fdtable := fdtable s; _exitstack := _exitstack s;
         proc_composer := proc_composer s; proc_worker := v;
         proc_dnf_json := proc_dnf_json s; res := res s |}
  | DnfJson =>
      {| environ := environ s; fdtable := fdtable s; _exitstack := _exitstack s;
         proc_composer := proc_composer s; proc_worker := proc_worker s;
         proc_dnf_json := v; res := res s |}
  end.

(** ** The monad *)

Record Outcome (A : Type) := Out {
  result : Result A;
  final : State;
  events : list Event
}.
Arguments Out {A} result final events.
Arguments result {A} _.
Arguments final {A} _.
Arguments events {A} _.

Definition M (A : Type) : Type := State → Outcome A.

Definition ret {A} (a : A) : M A := λ s, Out (Ok a) s [].

Definition bind {A B} (m : M A) (f : A → M B) : M B := λ s,
  match m s with
  | Out (Ok a) s1 e1 =>
      match f a s1 with
      | Out r s2 e2 => Out r s2 (e1 ++ e2)
      end
  | Out (Raise x) s1 e1 => Out (Raise x) s1 e1
  end.

Definition raise {A} (e : exn) : M A := λ s, Out (Raise e) s [].

(** [try: m except BaseException as e: h e] *)
Definition try_except {A} (m : M A) (h : exn → M A) : M A := λ s,
  match m s with
  | Out (Ok a) s1 e1 => Out (Ok a) s1 e1
  | Out (Raise x) s1 e1 =>
      match h x s1 with
      | Out r s2 e2 => Out r s2 (e1 ++ e2)
      end
  end.

Definition gets {A} (f : State → A) : M A := λ s, Out (Ok (f s)) s [].
Definition modify (f : State → State) : M unit := λ s, Out (Ok ()) (f s) [].
Definition emit (e : Event) : M unit := λ s, Out (Ok ()) s [e].

#[global] Instance M_ret : MRet M := @ret.
#[global] Instance M_bind : MBind M := λ A B f m, bind m f.

Definition when (b : bool) (m : M unit) : M unit := if b then m else ret ().

(** Python truthiness of an optional object ([if proc_worker:]). *)
Definition truthy {A} (x : option A) : bool :=
  match x with Some _ => true | None => false end.

(** ** Python library functions *)

(** [sep.join(l)] *)
Fixpoint join (sep : string) (l : list string) : string :=
  match l with
  | [] => EmptyString
  | [x] => x
  | x :: rest => x +:+ sep +:+ join sep rest
  end.

(** [any(l)] *)
Definition any (l : list bool) : bool := existsb id l.

(** [str(n)] for the non-negative integers the program prints. *)
Definition str (n : nat) : string := pretty n.

(** The kernel hands out the lowest descriptor that is not in use. *)
Fixpoint lowest_from (fuel n : nat) (fds : list nat) : nat :=
  match fuel with
  | 0 => n
  | S k => if bool_decide (n ∈ fds) then lowest_from k (S n) fds else n
  end.

Definition lowest_free (fds : list nat) : nat := lowest_from (List.length fds) 0 fds.

Section Os.
Variable o : Oracle.

  (** A call into the operating system at call site [p]. *)
Definition syscall {A} (p : point) (m : M A) : M A := λ s,
    match fault o p with
    | Some e => Out (Raise e) s []
    | None => m s
    end.

Definition print_stderr (msg : string) : M unit := emit (EStderr msg).

  (** [os.environ[k] = v] *)
Definition setenv (k v : string) : M unit :=
    modify (λ s, set_environ (<[k:=v]> (environ s)) s).

  (** [socket.socket(family, SOCK_STREAM)] *)
Definition socket_socket (k : SockSite) (f : family) : M socket :=
    syscall (at_socket k) (λ s,
      let fd := lowest_free (fdtable s) in
      Out (Ok {| fileno := fd; sock_family := f |})
          (set_fdtable (fdtable s ++ [fd]) s)
          [ESocket fd f]).

Definition setsockopt (sock : socket) (opt : sockopt) (v : Z) : M unit :=
    emit (ESetsockopt (fileno sock) opt v).

Definition sock_bind (k : SockSite) (sock : socket) (a : sockaddr) : M unit :=
    syscall (at_bind k) (emit (EBind (fileno sock) a)).

Definition sock_listen (k : SockSite) (sock : socket) (backlog : option nat)
    : M unit :=
    syscall (at_listen k) (emit (EListen (fileno sock) backlog)).

  (** [sock.close()] *)
Definition sock_close (sock : socket) : M unit := λ s,
    Out (Ok ())
        (set_fdtable (filter (λ fd, fd ≠ fileno sock) (fdtable s)) s)
        [EClose (fileno sock)].

  (** [self._exitstack.enter_context(contextlib.closing(sock))] *)
Definition enter_context_closing (sock : socket) : M unit :=
    modify (λ s, set_exitstack (sock :: _exitstack s) s).

  (** [ExitStack.close()]: the registered callbacks run last-in first-out. *)
Fixpoint close_all (l : list socket) : M unit :=
    match l with
    | [] => ret ()
    | sock :: rest => sock_close sock;; close_all rest
    end.

Definition exitstack_close : M unit :=
    l ← gets _exitstack;
    modify (set_exitstack []);;
    close_all l.

  (** *** [subprocess.Popen]

      The child is forked with a copy of the parent's process environment.
      [preexec_fn] then runs inside the child, where [os.getpid()] is the
      child's pid and [os.putenv] changes the child's own environment only.
      Finally the program is executed: with [env=] given, with exactly that
      environment; without it, with the child's process environment. *)
Record ChildCtx := {
    c_pid : nat;
    c_environ : gmap string string;
    c_log : list Event
  }.

Definition os_getpid (c : ChildCtx) : nat := c_pid c.

Definition os_putenv (k v : string) (c : ChildCtx) : ChildCtx :=
    {| c_pid := c_pid c;
       c_environ := <[k:=v]> (c_environ c);
       c_log := c_log c ++ [EPutenv (c_pid c) k v] |}.

Definition Popen (c : Child) (cmd : list string) (cwd : string)
      (env : option (gmap string string)) (pass_fds : list nat)
      (preexec_fn : option (ChildCtx → ChildCtx)) : M Popen_obj :=
    syscall (at_Popen c) (λ s,
      let child := {| c_pid := fork_pid o c; c_environ := environ s;
                      c_log := [] |} in
      let child := match preexec_fn with
                   | Some f => f child
                   | None => child
                   end in
      let envp := match env with
                  | Some e => e
                  | None => c_environ child
                  end in
      Out (Ok {| pid := fork_pid o c; returncode := None |}) s
          ([EFork c (fork_pid o c)] ++ c_log child ++
           [EExec c {| im_pid := fork_pid o c; im_argv := cmd; im_cwd := cwd;
                       im_env := envp; im_pass_fds := pass_fds |}])).

  (** [Popen.send_signal]: nothing is sent once the return code is known. *)
Definition send_signal (p : point) (c : Child) (sig : signal) : M unit :=
    syscall p (λ s,
      match slot c s with
      | None => Out (Raise RuntimeError) s []
      | Some h =>
          match returncode h with
          | Some _ => Out (Ok ()) s []
          | None => Out (Ok ()) s [ESignal c sig]
          end
      end).

Definition terminate (p : point) (c : Child) : M unit := send_signal p c SIGTERM.
Definition kill (p : point) (c : Child) : M unit := send_signal p c SIGKILL.

  (** [Popen.wait]: reaps the child and caches its return code; a later call
      answers from the cache. *)
Definition wait (p : point) (c : Child) : M Z :=
    syscall p (λ s,
      match slot c s with
      | None => Out (Raise RuntimeError) s []
      | Some h =>
          match returncode h with
          | Some code => Out (Ok code) s []
          | None =>
              let code := exit_status o c in
              Out (Ok code)
                  (set_slot c (Some {| pid := pid h; returncode := Some code |}) s)
                  [EReap c code]
          end
      end).

  (** ** The entrypoint *)
Section Cli.
Variable args : Namespace.

    (** [Cli.__enter__] (argument parsing is taken as done: [args]). *)
Definition __enter__ : M unit := modify (set_exitstack []).

    (** [Cli.__exit__] *)
Definition __exit__ : M unit := exitstack_close.

    (** [Cli._prepare_sockets] *)
Definition _prepare_sockets : M (list socket) :=
      let index : nat := 3 in
      let sockets : list socket := [] in
      let names : list string := [] in
      (* osbuild-composer.socket *)
      '(index, sockets, names) ←
        (if weldr_api args then
           print_stderr "Create weldr-api socket";;
           sock ← socket_socket WeldrSock AF_UNIX;
           enter_context_closing sock;;
           sock_bind WeldrSock sock (AddrUnix "/run/weldr/api.socket");;
           sock_listen WeldrSock sock None;;
           let sockets := sockets ++ [sock] in
           let names := names ++ ["osbuild-composer.socket"] in
           (if fileno sock =? index then ret () else raise AssertionError);;
           mret (index + 1, sockets, names)
         else mret (index, sockets, names));
      (* osbuild-composer-api.socket *)
      '(index, sockets, names) ←
        (if composer_api args then
           print_stderr ("Create composer-api socket on port "
                         +:+ pretty (composer_api_port args));;
           sock ← socket_socket ComposerApiSock AF_INET6;
           enter_context_closing sock;;
           setsockopt sock SO_REUSEADDR 1;;
           setsockopt sock IPV6_V6ONLY 0;;
           sock_bind ComposerApiSock sock (AddrInet6 "::" (composer_api_port args));;
           sock_listen ComposerApiSock sock None;;
           let sockets := sockets ++ [sock] in
           let names := names ++ ["osbuild-composer-api.socket"] in
           (if fileno sock =? index then ret () else raise AssertionError);;
           mret (index + 1, sockets, names)
         else mret (index, sockets, names));
      (* osbuild-local-worker.socket *)
      '(index, sockets, names) ←
        (if local_worker_api args then
           print_stderr "Create local-worker-api socket";;
           sock ← socket_socket LocalWorkerSock AF_UNIX;
           enter_context_closing sock;;
           sock_bind LocalWorkerSock sock (AddrUnix "/run/osbuild-composer/job.socket");;
           sock_listen LocalWorkerSock sock None;;
           let sockets := sockets ++ [sock] in
           let names := names ++ ["osbuild-local-worker.socket"] in
           (if fileno sock =? index then ret () else raise AssertionError);;
           mret (index + 1, sockets, names)
         else mret (index, sockets, names));
      (* osbuild-remote-worker.socket *)
      '(index, sockets, names) ←
        (if remote_worker_api args then
           print_stderr "Create remote-worker-api socket";;
           sock ← socket_socket RemoteWorkerSock AF_INET6;
           enter_context_closing sock;;
           setsockopt sock SO_REUSEADDR 1;;
           setsockopt sock IPV6_V6ONLY 0;;
           sock_bind RemoteWorkerSock sock (AddrInet6 "::" 8700);;
           sock_listen RemoteWorkerSock sock (Some 256);;
           let sockets := sockets ++ [sock] in
           let names := names ++ ["osbuild-remote-worker.socket"] in
           (if fileno sock =? index then ret () else raise AssertionError);;
           mret (index + 1, sockets, names)
         else mret (index, sockets, names));
      (* Prepare FD environment for the child process. *)
      setenv "LISTEN_FDS" (str (List.length sockets));;
      setenv "LISTEN_FDNAMES" (join ":" names);;
      mret sockets.

    (** [Cli._spawn_worker] *)
Definition _spawn_worker : M Popen_obj :=
      let cmd := ["/usr/libexec/osbuild-composer/osbuild-worker"; "-unix";
                  "/run/osbuild-composer/job.socket"] in
      env ← gets environ;
      let env := <["CACHE_DIRECTORY" := "/var/cache/osbuild-worker"]> env in
      let env := <["STATE_DIRECTORY" := "/var/lib/osbuild-worker"]> env in
      Popen Worker cmd "/" (Some env) [] None.

    (** [Cli._spawn_composer] *)
Definition preexec_setenv : ChildCtx → ChildCtx :=
      λ c, os_putenv "LISTEN_PID" (str (os_getpid c)) c.

Definition _spawn_composer (sockets : list socket) : M Popen_obj :=
      let cmd := ["/usr/libexec/osbuild-composer/osbuild-composer"; "-verbose"] in
      setenv "CACHE_DIRECTORY" "/var/cache/osbuild-composer";;
      setenv "STATE_DIRECTORY" "/var/lib/osbuild-composer";;
      Popen Composer cmd "/usr/libexec/osbuild-composer" None
            (map fileno sockets) (Some preexec_setenv).

    (** [Cli._spawn_dnf_json] *)
Definition _spawn_dnf_json : M Popen_obj :=
      let cmd := ["/usr/libexec/osbuild-composer/dnf-json"] in
      sock ←
        (if negb (dnf_json_port args =? 0)%Z then
           sock ← socket_socket DnfJsonSock AF_INET6;
           enter_context_closing sock;;
           setsockopt sock SO_REUSEADDR 1;;
           setsockopt sock IPV6_V6ONLY 0;;
           sock_bind DnfJsonSock sock (AddrInet6 "::" (dnf_json_port args));;
           sock_listen DnfJsonSock sock None;;
           mret sock
         else
           sock ← socket_socket DnfJsonSock AF_UNIX;
           enter_context_closing sock;;
           sock_bind DnfJsonSock sock (AddrUnix "/run/osbuild-dnf-json/api.sock");;
           sock_listen DnfJsonSock sock None;;
           mret sock);
      dnfenv ← gets environ;
      let dnfenv := <["LISTEN_FDS" := "1"]> dnfenv in
      let dnfenv := <["LISTEN_FD" := str (fileno sock)]> dnfenv in
      Popen DnfJson cmd "/usr/libexec/osbuild-composer" (Some dnfenv)
            [fileno sock] None.

    (** The body of the [try:] block of [Cli.run] (lines 304-326). *)
Definition run_try (sockets : list socket) : M Z :=
      when (builtin_worker args)
        (p ← _spawn_worker; modify (set_slot Worker (Some p)));;
      when (dnf_json args)
        (p ← _spawn_dnf_json; modify (set_slot DnfJson (Some p)));;
      when (any [weldr_api args; composer_api args; local_worker_api args;
                 remote_worker_api args])
        (p ← _spawn_composer sockets; modify (set_slot Composer (Some p)));;
      c ← gets proc_composer;
      when (truthy c)
        (r ← wait (at_wait Composer) Composer; modify (set_res r));;
      w ← gets proc_worker;
      when (truthy w)
        (c ← gets proc_composer;
         when (truthy c) (terminate (at_terminate Worker) Worker);;
         wait (at_wait Worker) Worker;; ret ());;
      d ← gets proc_dnf_json;
      when (truthy d)
        (c ← gets proc_composer;
         when (truthy c) (terminate (at_terminate DnfJson) DnfJson);;
         wait (at_wait DnfJson) DnfJson;; ret ());;
      gets res.

    (** [except KeyboardInterrupt:] (lines 327-336), falling through to the
        final [return res]. *)
Definition run_interrupted : M Z :=
      w ← gets proc_worker;
      when (truthy w)
        (terminate (at_int_terminate Worker) Worker;;
         wait (at_int_wait Worker) Worker;; ret ());;
      d ← gets proc_dnf_json;
      when (truthy d)
        (terminate (at_int_terminate DnfJson) DnfJson;;
         wait (at_int_wait DnfJson) DnfJson;; ret ());;
      c ← gets proc_composer;
      when (truthy c)
        (terminate (at_int_terminate Composer) Composer;;
         r ← wait (at_int_wait Composer) Composer; modify (set_res r));;
      gets res.

    (** The bare [except:] (lines 337-344). *)
Definition run_failed (e : exn) : M Z :=
      w ← gets proc_worker;
      when (truthy w) (kill (at_kill Worker) Worker);;
      d ← gets proc_dnf_json;
      when (truthy d) (kill (at_kill DnfJson) DnfJson);;
      c ← gets proc_composer;
      when (truthy c) (kill (at_kill Composer) Composer);;
      raise e.

Definition run_except (e : exn) : M Z :=
      match e with
      | KeyboardInterrupt => run_interrupted
      | _ => run_failed e
      end.

    (** [Cli.run] *)
Definition run : M Z :=
      modify (set_slot Composer None);;
      modify (set_slot Worker None);;
      modify (set_slot DnfJson None);;
      modify (set_res 0);;
      sockets ← _prepare_sockets;
      try_except (run_try sockets) run_except.

    (** [with Cli(sys.argv) as global_main: sys.exit(global_main.run())]:
        [__exit__] runs whether [run] returned or raised, and the outcome of
        [run] is the outcome of the program. *)
Definition main : M Z := λ s,
      match (__enter__;; run) s with
      | Out r s1 e1 =>
          match __exit__ s1 with
          | Out _ s2 e2 => Out r s2 (e1 ++ e2)
          end
      end.
End Cli.
End Os.

(** The supervisor as the container runtime starts it: the three standard
    streams are open and nothing else is. *)
Definition boot (env0 : gmap string string) : State :=
  {| environ := env0; fdtable := [0; 1; 2]; _exitstack := [];
     proc_composer := None; proc_worker := None; proc_dnf_json := None;
     res := 0 |}.

(** ** The command line

    [Cli._parse_args] declares twelve options.  A command line is taken here
    as the sequence of options [argparse] has recognised on it, each integer
    option with its converted value; [-h] and the command lines [argparse]
    rejects end the program in [SystemExit] before [run] is called. *)
Inductive CliOption :=
| opt_composer_api                 (* --composer-api, store_true *)
| opt_no_composer_api              (* --no-composer-api, store_false *)
| opt_composer_api_port (n : Z)    (* --composer-api-port, type=int *)
| opt_local_worker_api
| opt_no_local_worker_api
| opt_remote_worker_api
| opt_no_remote_worker_api
| opt_weldr_api
| opt_no_weldr_api
| opt_dnf_json
| opt_no_dnf_json
| opt_dnf_json_port (n : Z).       (* --dnf-json-port, type=int *)

(** The namespace before any option is seen: [default=] of the two ports and
    [set_defaults] (lines 119-126). *)
Definition parser_defaults : Namespace :=
  {| builtin_worker := false; composer_api := false; composer_api_port := 443;
     local_worker_api := false; remote_worker_api := false; weldr_api := false;
     dnf_json := false; dnf_json_port := 0 |}.

Definition set_composer_api (b : bool) (ns : Namespace) : Namespace :=
  {| builtin_worker := builtin_worker ns; composer_api := b;
     composer_api_port := composer_api_port ns;
     local_worker_api := local_worker_api ns;
     remote_worker_api := remote_worker_api ns; weldr_api := weldr_api ns;
     dnf_json := dnf_json ns; dnf_json_port := dnf_json_port ns |}.

Definition set_composer_api_port (n : Z) (ns : Namespace) : Namespace :=
  {| builtin_worker := builtin_worker ns; composer_api := composer_api ns;
     composer_api_port := n;
     local_worker_api := local_worker_api ns;
     remote_worker_api := remote_worker_api ns; weldr_api := weldr_api ns;
     dnf_json := dnf_json ns; dnf_json_port := dnf_json_port ns |}.

Definition set_local_worker_api (b : bool) (ns : Namespace) : Namespace :=
  {| builtin_worker := builtin_worker ns; composer_api := composer_api ns;
     composer_api_port := composer_api_port ns;
     local_worker_api := b;
     remote_worker_api := remote_worker_api ns; weldr_api := weldr_api ns;
     dnf_json := dnf_json ns; dnf_json_port := dnf_json_port ns |}.

Definition set_remote_worker_api (b : bool) (ns : Namespace) : Namespace :=
  {| builtin_worker := builtin_worker ns; composer_api := composer_api ns;
     composer_api_port := composer_api_port ns;
     local_worker_api := local_worker_api ns;
     remote_worker_api := b; weldr_api := weldr_api ns;
     dnf_json := dnf_json ns; dnf_json_port := dnf_json_port ns |}.

Definition set_weldr_api (b : bool) (ns : Namespace) : Namespace :=
  {| builtin_worker := builtin_worker ns; composer_api := composer_api ns;
     composer_api_port := composer_api_port ns;
     local_worker_api := local_worker_api ns;
     remote_worker_api := remote_worker_api ns; weldr_api := b;
     dnf_json := dnf_json ns; dnf_json_port := dnf_json_port ns |}.

Definition set_dnf_json (b : bool) (ns : Namespace) : Namespace :=
  {| builtin_worker := builtin_worker ns; composer_api := composer_api ns;
     composer_api_port := composer_api_port ns;
     local_worker_api := local_worker_api ns;
     remote_worker_api := remote_worker_api ns; weldr_api := weldr_api ns;
     dnf_json := b; dnf_json_port := dnf_json_port ns |}.

Definition set_dnf_json_port (n : Z) (ns : Namespace) : Namespace :=
  {| builtin_worker := builtin_worker ns; composer_api := composer_api ns;
     composer_api_port := composer_api_port ns;
     local_worker_api := local_worker_api ns;
     remote_worker_api := remote_worker_api ns; weldr_api := weldr_api ns;
     dnf_json := dnf_json ns; dnf_json_port := n |}.

(** The action of one option on the namespace: [dest=] names the attribute,
    [store_true] and [store_false] the value. *)
Definition store (ns : Namespace) (opt : CliOption) : Namespace :=
  match opt with
  | opt_composer_api => set_composer_api true ns
  | opt_no_composer_api => set_composer_api false ns
  | opt_composer_api_port n => set_composer_api_port n ns
  | opt_local_worker_api => set_local_worker_api true ns
  | opt_no_local_worker_api => set_local_worker_api false ns
  | opt_remote_worker_api => set_remote_worker_api true ns
  | opt_no_remote_worker_api => set_remote_worker_api false ns
  | opt_weldr_api => set_weldr_api true ns
  | opt_no_weldr_api => set_weldr_api false ns
  | opt_dnf_json => set_dnf_json true ns
  | opt_no_dnf_json => set_dnf_json false ns
  | opt_dnf_json_port n => set_dnf_json_port n ns
  end.

(** [Cli._parse_args]: the options act from left to right. *)
Definition _parse_args (argv : list CliOption) : Namespace :=
  fold_left store argv parser_defaults.

(** The program: [with Cli(sys.argv) as global_main:
    sys.exit(global_main.run())], with [self.args] set by [__enter__]. *)
Definition entrypoint (o : Oracle) (argv : list CliOption) : M Z :=
  main o (_parse_args argv).

(** ** The shape of [Cli.run], named for the proofs *)

(** The state in which [run] enters socket preparation. *)
Definition run_init (s : State) : State :=
  set_res 0 (set_slot DnfJson None (set_slot Worker None (set_slot Composer None s))).

(** The [try] statement of [run]. *)
Definition supervise (o : Oracle) (args : Namespace) (sockets : list socket) : M Z :=
  try_except (run_try o args sockets) (run_except o).

(** ** The two halves of the [try] block

    Lines 304-311 spawn the children, lines 313-326 wait for them. *)
Definition run_spawn (o : Oracle) (args : Namespace) (sockets : list socket)
  : M unit :=
  when (builtin_worker args)
    (p ← _spawn_worker o; modify (set_slot Worker (Some p)));;
  when (dnf_json args)
    (p ← _spawn_dnf_json o args; modify (set_slot DnfJson (Some p)));;
  when (any [weldr_api args; composer_api args; local_worker_api args;
             remote_worker_api args])
    (p ← _spawn_composer o sockets; modify (set_slot Composer (Some p))).

Definition run_cascade (o : Oracle) : M Z :=
  c ← gets proc_composer;
  when (truthy c)
    (r ← wait o (at_wait Composer) Composer; modify (set_res r));;
  w ← gets proc_worker;
  when (truthy w)
    (c ← gets proc_composer;
     when (truthy c) (terminate o (at_terminate Worker) Worker);;
     wait o (at_wait Worker) Worker;; ret ());;
  d ← gets proc_dnf_json;
  when (truthy d)
    (c ← gets proc_composer;
     when (truthy c) (terminate o (at_terminate DnfJson) DnfJson);;
     wait o (at_wait DnfJson) DnfJson;; ret ());;
  gets res.

(** * Vocabulary of the specification and of the proofs *)

(** ** Views of an event list *)

Definition forks (evs : list Event) : list Child :=
  omap (λ e, match e with EFork c _ => Some c | _ => None end) evs.

Definition sigs (evs : list Event) : list (Child * signal) :=
  omap (λ e, match e with ESignal c sig => Some (c, sig) | _ => None end) evs.

Definition reaps (evs : list Event) : list (Child * Z) :=
  omap (λ e, match e with EReap c code => Some (c, code) | _ => None end) evs.

Definition execs (evs : list Event) : list (Child * Image) :=
  omap (λ e, match e with EExec c img => Some (c, img) | _ => None end) evs.

Definition opened (evs : list Event) : list nat :=
  omap (λ e, match e with ESocket fd _ => Some fd | _ => None end) evs.

Definition closed (evs : list Event) : list nat :=
  omap (λ e, match e with EClose fd => Some fd | _ => None end) evs.

(** The life of the children as the supervisor drives it. *)
Inductive PEvent :=
| Spawned (c : Child)
| Signalled (c : Child) (sig : signal)
| Reaped (c : Child) (code : Z).

Definition ptrace (evs : list Event) : list PEvent :=
  omap (λ e, match e with
             | EFork c _ => Some (Spawned c)
             | ESignal c sig => Some (Signalled c sig)
             | EReap c code => Some (Reaped c code)
             | _ => None
             end) evs.

#[global] Instance Child_eq_dec : EqDecision Child.
Proof. solve_decision. Defined.
#[global] Instance signal_eq_dec : EqDecision signal.
Proof. solve_decision. Defined.
#[global] Instance exn_eq_dec : EqDecision exn.
Proof. solve_decision. Defined.

(** ** Symbolic execution: a weakest-precondition reading of the monad *)

Definition wp {A} (m : M A) (s : State)
    (Q : Result A → State → list Event → Prop) : Prop :=
  Q (result (m s)) (final (m s)) (events (m s)).

(** ** Relations that every step of a computation respects

    [R s s' evs] relates the state before, the state after and the events in
    between.  A reflexive and transitive [R] that every primitive respects is
    respected by every program built from them, whatever faults occur. *)
Definition respects (R : State → State → list Event → Prop) {A} (m : M A)
  : Prop :=
  ∀ s, R s (final (m s)) (events (m s)).

(** Socket preparation leaves the children alone. *)
Definition R_prep (s s' : State) (e : list Event) : Prop :=
  (∀ c, slot c s' = slot c s) ∧ res s' = res s ∧
  forks e = [] ∧ execs e = [] ∧ sigs e = [] ∧ reaps e = [] ∧ closed e = [] ∧
  ptrace e = [].

(** ** Socket preparation *)

(** The logical names of the enabled activation sockets, in creation order. *)
Definition enabled_socket_names (args : Namespace) : list string :=
  (if weldr_api args then ["osbuild-composer.socket"] else []) ++
  (if composer_api args then ["osbuild-composer-api.socket"] else []) ++
  (if local_worker_api args then ["osbuild-local-worker.socket"] else []) ++
  (if remote_worker_api args then ["osbuild-remote-worker.socket"] else []).

(** An exception raised by one of the socket calls of the entrypoint. *)
Definition socket_fault (o : Oracle) (e : exn) : Prop :=
  ∃ k, fault o (at_socket k) = Some e ∨ fault o (at_bind k) = Some e ∨
       fault o (at_listen k) = Some e.

Definition prepare_sockets_spec (o : Oracle) (args : Namespace) (s : State)
    (r : Result (list socket)) (s' : State) : Prop :=
  (∀ socks, r = Ok socks →
    environ s' !! "LISTEN_FDNAMES" = Some (join ":" (enabled_socket_names args)) ∧
    environ s' !! "LISTEN_FDS" = Some (str (length (enabled_socket_names args))) ∧
    map fileno socks = seq 3 (length (enabled_socket_names args)) ∧
    (∀ fd, fd ∈ map fileno socks → fd ∈ fdtable s')) ∧
  (fdtable s = [0; 1; 2] → ∀ e, r = Raise e → socket_fault o e).

(** [fdn] and [fds] are the values of [LISTEN_FDNAMES] and [LISTEN_FDS] in
    the supervisor's environment, [act] the activation descriptors and
    [pfds] the descriptors passed to the composer. *)
Definition image_ok (fdn fds : option string) (act pfds : list nat) (e : Event)
  : Prop :=
  match e with
  | EExec c img =>
      im_env img !! "LISTEN_FDNAMES" = fdn ∧
      match c with
      | Composer =>
          im_env img !! "LISTEN_FDS" = fds ∧
          im_env img !! "LISTEN_PID" = Some (str (im_pid img)) ∧
          im_pass_fds img = pfds
      | Worker =>
          im_env img !! "LISTEN_FDS" = fds ∧ im_pass_fds img = []
      | DnfJson =>
          im_env img !! "LISTEN_FDS" = Some "1" ∧
          ∃ fd, im_pass_fds img = [fd] ∧ (fd ∉ act) ∧
                im_env img !! "LISTEN_FD" = Some (str fd)
      end
  | _ => True
  end.

Definition env_ready (fdn fds : option string) (act : list nat) (s : State)
  : Prop :=
  environ s !! "LISTEN_FDNAMES" = fdn ∧ environ s !! "LISTEN_FDS" = fds ∧
  ∀ fd, fd ∈ act → fd ∈ fdtable s.

Definition R_img (fdn fds : option string) (act pfds : list nat)
    (s s' : State) (e : list Event) : Prop :=
  env_ready fdn fds act s →
  env_ready fdn fds act s' ∧ Forall (image_ok fdn fds act pfds) e.

(** ** Concrete scenarios *)

(** A world in which nothing goes wrong; the composer exits with code 3. *)
Definition oracle_quiet : Oracle :=
  {| fault := λ _, None;
     exit_status := λ c, match c with Composer => 3%Z | _ => 0%Z end;
     fork_pid := λ c, match c with Worker => 100 | DnfJson => 101 | Composer => 102 end |}.

(** The operator interrupts the supervisor while it waits for the composer. *)
Definition oracle_interrupt : Oracle :=
  {| fault := λ p, match p with
                   | at_wait Composer => Some KeyboardInterrupt
                   | _ => None
                   end;
     exit_status := λ c, match c with Composer => 3%Z | _ => 0%Z end;
     fork_pid := λ c, match c with Worker => 100 | DnfJson => 101 | Composer => 102 end |}.

(** The composer binary cannot be executed. *)
Definition oracle_no_composer : Oracle :=
  {| fault := λ p, match p with
                   | at_Popen Composer => Some OSError
                   | _ => None
                   end;
     exit_status := λ _, 0%Z;
     fork_pid := λ c, match c with Worker => 100 | DnfJson => 101 | Composer => 102 end |}.

(** Binding the composer-API port fails. *)
Definition oracle_bind_fails : Oracle :=
  {| fault := λ p, match p with
                   | at_bind ComposerApiSock => Some OSError
                   | _ => None
                   end;
     exit_status := λ _, 0%Z;
     fork_pid := λ c, match c with Worker => 100 | DnfJson => 101 | Composer => 102 end |}.

(** An oracle under which dnf-json exits with code 7. *)
Definition oracle_helper_fails : Oracle :=
  {| fault := λ _, None;
     exit_status := λ c, match c with DnfJson => 7%Z | _ => 0%Z end;
     fork_pid := λ c, match c with Worker => 100 | DnfJson => 101 | Composer => 102 end |}.

(** [--composer-api --local-worker-api] with the built-in worker and the
    dnf-json helper. *)
Definition args_full : Namespace :=
  {| builtin_worker := true; composer_api := true; composer_api_port := 443;
     local_worker_api := true; remote_worker_api := false; weldr_api := false;
     dnf_json := true; dnf_json_port := 0 |}.

(** [--weldr-api --dnf-json] *)
Definition args_weldr_dnf : Namespace :=
  {| builtin_worker := false; composer_api := false; composer_api_port := 443;
     local_worker_api := false; remote_worker_api := false; weldr_api := true;
     dnf_json := true; dnf_json_port := 0 |}.

(** [--dnf-json] alone. *)
Definition args_dnf_only : Namespace :=
  {| builtin_worker := false; composer_api := false; composer_api_port := 443;
     local_worker_api := false; remote_worker_api := false; weldr_api := false;
     dnf_json := true; dnf_json_port := 0 |}.

(** ** Sockets and the exit stack *)

(** No socket is closed while [run] is at work; the descriptors opened are
    fresh, appended to the descriptor table, and registered on the exit stack
    in reverse order. *)
Definition R_sock (s s' : State) (e : list Event) : Prop :=
  closed e = [] ∧
  fdtable s' = fdtable s ++ opened e ∧
  map fileno (_exitstack s') = reverse (opened e) ++ map fileno (_exitstack s) ∧
  (∀ fd, fd ∈ opened e → fd ∉ fdtable s) ∧
  NoDup (opened e).

(** ** The launch plan *)

(** [any([...])] on line 310. *)
Definition any_api (args : Namespace) : bool :=
  any [weldr_api args; composer_api args; local_worker_api args;
       remote_worker_api args].

(** The helpers to start, in the order they are started. *)
Definition helpers (args : Namespace) : list Child :=
  (if builtin_worker args then [Worker] else []) ++
  (if dnf_json args then [DnfJson] else []).

(** The children to start: the helpers first, the composer last. *)
Definition launch_plan (args : Namespace) : list Child :=
  helpers args ++ (if any_api args then [Composer] else []).

(** The state in which the [try] statement of [run] is entered. *)
Definition entry (E : gmap string string) (F : list nat) (K : list socket)
  : State :=
  {| environ := E; fdtable := F; _exitstack := K;
     proc_composer := None; proc_worker := None; proc_dnf_json := None;
     res := 0 |}.

(** With the standard streams only and no failing socket call, socket
    preparation succeeds. *)
Definition sockets_ok (o : Oracle) : Prop :=
  ∀ k, fault o (at_socket k) = None ∧ fault o (at_bind k) = None ∧
       fault o (at_listen k) = None.

(** Neither the cascade nor the handlers start a program. *)
Definition R_noforks (s s' : State) (e : list Event) : Prop := forks e = [].

(** ** Process traces *)

Definition pchild (p : PEvent) : Child :=
  match p with Spawned c | Signalled c _ | Reaped c _ => c end.

Definition spawned (t : list PEvent) (c : Child) : bool :=
  existsb (λ p, match p with Spawned c' => bool_decide (c' = c) | _ => false end) t.

Definition reaped (t : list PEvent) (c : Child) : bool :=
  existsb (λ p, match p with Reaped c' _ => bool_decide (c' = c) | _ => false end) t.

(** A child that has been spawned and not yet waited on. *)
Definition live (t : list PEvent) (c : Child) : bool :=
  spawned t c && negb (reaped t c).

Definition any_reaped (t : list PEvent) : bool :=
  existsb (λ p, match p with Reaped _ _ => true | _ => false end) t.

Definition any_signalled (t : list PEvent) : bool :=
  existsb (λ p, match p with Signalled _ _ => true | _ => false end) t.

(** What the bare [except:] sends, given the life of the children so far. *)
Definition kills (t : list PEvent) : list PEvent :=
  map (λ c, Signalled c SIGKILL)
      (filter (λ c, live t c = true) [Worker; DnfJson; Composer]).

Definition failure_handled (o : Oracle) (e : exn) (s1 : State) (e1 : list Event)
  : Prop :=
  result (run_except o e s1) = Raise e ∧
  ptrace (events (run_except o e s1)) = kills (ptrace e1) ∧
  (any_reaped (ptrace e1) = false → any_signalled (ptrace e1) = false).

(** The life of the children up to the end of the [try] block of [run]. *)
Definition try_trace (o : Oracle) (args : Namespace) (s : State)
    (socks : list socket) : list PEvent :=
  ptrace (events (run_try o args socks
                    (final (_prepare_sockets o args (run_init s))))).

(** The ordering C4 asks for: a helper is signalled only once the composer
    has itself been signalled or waited on. *)
Definition helpers_end_after_primary (t : list PEvent) : Prop :=
  ∀ i h g, h ≠ Composer → t !! i = Some (Signalled h g) →
    ∃ j, j < i ∧
      ((∃ z, t !! j = Some (Reaped Composer z)) ∨
       (∃ g', t !! j = Some (Signalled Composer g'))).

(** ** The command line, read back *)

(** The five switches of the command line. *)
Inductive Switch :=
  SwComposerApi | SwLocalWorkerApi | SwRemoteWorkerApi | SwWeldrApi | SwDnfJson.

#[global] Instance Switch_eq_dec : EqDecision Switch.
Proof. solve_decision. Defined.

Definition switch_value (w : Switch) (ns : Namespace) : bool :=
  match w with
  | SwComposerApi => composer_api ns
  | SwLocalWorkerApi => local_worker_api ns
  | SwRemoteWorkerApi => remote_worker_api ns
  | SwWeldrApi => weldr_api ns
  | SwDnfJson => dnf_json ns
  end.

(** What an option says about a switch, if anything. *)
Definition says (w : Switch) (opt : CliOption) : option bool :=
  match w, opt with
  | SwComposerApi, opt_composer_api => Some true
  | SwComposerApi, opt_no_composer_api => Some false
  | SwLocalWorkerApi, opt_local_worker_api => Some true
  | SwLocalWorkerApi, opt_no_local_worker_api => Some false
  | SwRemoteWorkerApi, opt_remote_worker_api => Some true
  | SwRemoteWorkerApi, opt_no_remote_worker_api => Some false
  | SwWeldrApi, opt_weldr_api => Some true
  | SwWeldrApi, opt_no_weldr_api => Some false
  | SwDnfJson, opt_dnf_json => Some true
  | SwDnfJson, opt_no_dnf_json => Some false
  | _, _ => None
  end.

Definition says_composer_api_port (opt : CliOption) : option Z :=
  match opt with opt_composer_api_port n => Some n | _ => None end.

Definition says_dnf_json_port (opt : CliOption) : option Z :=
  match opt with opt_dnf_json_port n => Some n | _ => None end.

(** An option that switches something on. *)
Definition enabling (opt : CliOption) : Prop := ∃ w, says w opt = Some true.

(** ** The wiring of the activation sockets *)

(** The activation sockets of the enabled roles, in creation order: the name
    announced for each and the address it is bound to. *)
Definition activation_sockets (args : Namespace) : list (string * sockaddr) :=
  (if weldr_api args
   then [("osbuild-composer.socket", AddrUnix "/run/weldr/api.socket")]
   else []) ++
  (if composer_api args
   then [("osbuild-composer-api.socket", AddrInet6 "::" (composer_api_port args))]
   else []) ++
  (if local_worker_api args
   then [("osbuild-local-worker.socket",
          AddrUnix "/run/osbuild-composer/job.socket")]
   else []) ++
  (if remote_worker_api args
   then [("osbuild-remote-worker.socket", AddrInet6 "::" 8700)]
   else []).

Definition bound (evs : list Event) : list (nat * sockaddr) :=
  omap (λ e, match e with EBind fd a => Some (fd, a) | _ => None end) evs.

Definition on_fd (fd : nat) (e : Event) : bool :=
  match e with
  | ESocket fd' _ | ESetsockopt fd' _ _ | EBind fd' _ | EListen fd' _
  | EClose fd' => fd' =? fd
  | _ => false
  end.

(** What has happened to descriptor [fd]. *)
Definition history (fd : nat) (evs : list Event) : list Event :=
  List.filter (on_fd fd) evs.

(** A socket that has been created, configured, bound and put into the
    listening state, in this order, and nothing else: a network socket is
    dual-stack on the wildcard address, with address reuse. *)
Definition listening (sock : socket) (evs : list Event) : Prop :=
  match sock_family sock with
  | AF_UNIX =>
      ∃ path backlog,
        history (fileno sock) evs
          = [ESocket (fileno sock) AF_UNIX;
             EBind (fileno sock) (AddrUnix path);
             EListen (fileno sock) backlog]
  | AF_INET6 =>
      ∃ port backlog,
        history (fileno sock) evs
          = [ESocket (fileno sock) AF_INET6;
             ESetsockopt (fileno sock) SO_REUSEADDR 1;
             ESetsockopt (fileno sock) IPV6_V6ONLY 0;
             EBind (fileno sock) (AddrInet6 "::" port);
             EListen (fileno sock) backlog]
  end.

Definition prepare_sockets_wired (args : Namespace) (s : State)
    (r : Result (list socket)) (s' : State) (e : list Event) : Prop :=
  match r with
  | Ok socks =>
      environ s' = <["LISTEN_FDNAMES" := join ":" (map fst (activation_sockets args))]>
                     (<["LISTEN_FDS" := str (length socks)]> (environ s)) ∧
      opened e = map fileno socks ∧
      fdtable s' = fdtable s ++ map fileno socks ∧
      bound e = zip (seq 3 (length (activation_sockets args)))
                    (map snd (activation_sockets args)) ∧
      Forall (λ sock, listening sock e) socks
  | Raise _ => environ s' = environ s
  end.

(** The variables of the supervisor's environment that the entrypoint
    assigns. *)
Definition assigned_variables : list string :=
  ["LISTEN_FDS"; "LISTEN_FDNAMES"; "CACHE_DIRECTORY"; "STATE_DIRECTORY"].

(** The variables a child is given on top of the supervisor's. *)
Definition own_variables (c : Child) : list string :=
  match c with
  | Composer => ["LISTEN_PID"]
  | Worker => []
  | DnfJson => ["LISTEN_FD"]
  end.

Definition R_frame (k : string) (s s' : State) (e : list Event) : Prop :=
  environ s' !! k = environ s !! k ∧
  Forall (λ ev, match ev with
                | EExec c img => k ∉ own_variables c →
                                 im_env img !! k = environ s !! k
                | _ => True
                end) e.

(** Where dnf-json listens: on the given port of every interface when a port
    is given, on a fixed unix socket when it is not, or is 0. *)
Definition dnf_json_endpoint (args : Namespace) : family * sockaddr :=
  if negb (dnf_json_port args =? 0)%Z
  then (AF_INET6, AddrInet6 "::" (dnf_json_port args))
  else (AF_UNIX, AddrUnix "/run/osbuild-dnf-json/api.sock").

(** [--dnf-json --dnf-json-port 8080] *)
Definition args_dnf_port : Namespace :=
  {| builtin_worker := false; composer_api := false; composer_api_port := 443;
     local_worker_api := false; remote_worker_api := false; weldr_api := false;
     dnf_json := true; dnf_json_port := 8080 |}.

(** Neither the cascade nor the handlers execute a program. *)
Definition R_noexec (s s' : State) (e : list Event) : Prop := execs e = [].

(** What a program started from the [try] block is given, when the block is
    entered with environment [E] and descriptor table [F]. *)
Definition program_image (E : gmap string string) (F : list nat) (ev : Event)
  : Prop :=
  match ev with
  | EExec Worker img =>
      im_argv img = ["/usr/libexec/osbuild-composer/osbuild-worker"; "-unix";
                     "/run/osbuild-composer/job.socket"] ∧
      im_cwd img = "/" ∧
      im_env img !! "CACHE_DIRECTORY" = Some "/var/cache/osbuild-worker" ∧
      im_env img !! "STATE_DIRECTORY" = Some "/var/lib/osbuild-worker"
  | EExec Composer img =>
      im_argv img = ["/usr/libexec/osbuild-composer/osbuild-composer"; "-verbose"] ∧
      im_cwd img = "/usr/libexec/osbuild-composer" ∧
      im_env img !! "CACHE_DIRECTORY" = Some "/var/cache/osbuild-composer" ∧
      im_env img !! "STATE_DIRECTORY" = Some "/var/lib/osbuild-composer"
  | EExec DnfJson img =>
      im_argv img = ["/usr/libexec/osbuild-composer/dnf-json"] ∧
      im_cwd img = "/usr/libexec/osbuild-composer" ∧
      im_env img !! "CACHE_DIRECTORY" = E !! "CACHE_DIRECTORY" ∧
      im_env img !! "STATE_DIRECTORY" = E !! "STATE_DIRECTORY" ∧
      im_pass_fds img = [lowest_free F] ∧
      im_env img !! "LISTEN_FD" = Some (str (lowest_free F))
  | _ => True
  end.

(** ** Orderly lives *)

Definition inb (c : Child) (l : list Child) : bool :=
  existsb (λ c', bool_decide (c' = c)) l.

(** [orderly_from sp rp t]: with the children [sp] spawned and [rp] reaped so
    far, the trace [t] spawns no child twice, and signals and reaps only
    children that have been spawned and not yet reaped. *)
Fixpoint orderly_from (sp rp : list Child) (t : list PEvent) : bool :=
  match t with
  | [] => true
  | Spawned c :: t' => negb (inb c sp) && orderly_from (c :: sp) rp t'
  | Signalled c _ :: t' => inb c sp && negb (inb c rp) && orderly_from sp rp t'
  | Reaped c _ :: t' => inb c sp && negb (inb c rp) && orderly_from sp (c :: rp) t'
  end.

Definition orderly (t : list PEvent) : bool := orderly_from [] [] t.

Definition no_kill (t : list PEvent) : bool :=
  forallb (λ p, match p with Signalled _ SIGKILL => false | _ => true end) t.

Definition all_reaped (t : list PEvent) : bool :=
  forallb (λ c, implb (spawned t c) (reaped t c)) [Worker; DnfJson; Composer].

Definition supervised (o : Oracle) (r : Result Z) (t : list PEvent) : Prop :=
  orderly t = true ∧
  ∀ z, r = Ok z →
    no_kill t = true ∧ all_reaped t = true ∧
    z = if spawned t Composer then exit_status o Composer else 0%Z.

(** A [Popen] object fresh from [subprocess.Popen], or no object. *)
Definition fresh_proc (o : Oracle) (c : Child) (b : bool) : option Popen_obj :=
  if b then Some {| pid := fork_pid o c; returncode := None |} else None.

(** The state after the first half of the [try] block: [w], [d] and [c] say
    which children have been started. *)
Definition started (o : Oracle) (w d c : bool) (E : gmap string string)
    (F : list nat) (K : list socket) : State :=
  {| environ := E; fdtable := F; _exitstack := K;
     proc_composer := fresh_proc o Composer c; proc_worker := fresh_proc o Worker w;
     proc_dnf_json := fresh_proc o DnfJson d; res := 0 |}.

Definition started_plan (w d c : bool) : list Child :=
  (if w then [Worker] else []) ++ (if d then [DnfJson] else []) ++
  (if c then [Composer] else []).

(** The operator interrupts the supervisor while it starts the composer. *)
Definition oracle_early_interrupt : Oracle :=
  {| fault := λ p, match p with
                   | at_Popen Composer => Some KeyboardInterrupt
                   | _ => None
                   end;
     exit_status := λ c, match c with Composer => 3%Z | _ => 0%Z end;
     fork_pid := λ c, match c with Worker => 100 | DnfJson => 101 | Composer => 102 end |}.

(** The call sites inside [except KeyboardInterrupt:]. *)
Definition interrupt_point (p : point) : bool :=
  match p with
  | at_int_terminate _ | at_int_wait _ => true
  | _ => false
  end.

(** Child [c] is neither signalled nor waited on in [t]. *)
Definition untouched (t : list PEvent) (c : Child) : bool :=
  forallb (λ p, match p with
                | Signalled c' _ | Reaped c' _ => negb (bool_decide (c' = c))
                | Spawned _ => true
                end) t.

(** The operator interrupts the supervisor while it waits for the composer,
    and once more while it waits for the worker to terminate. *)
Definition oracle_two_interrupts : Oracle :=
  {| fault := λ p, match p with
                   | at_wait Composer => Some KeyboardInterrupt
                   | at_int_wait Worker => Some KeyboardInterrupt
                   | _ => None
                   end;
     exit_status := λ c, match c with Composer => 3%Z | _ => 0%Z end;
     fork_pid := λ c, match c with Worker => 100 | DnfJson => 101 | Composer => 102 end |}.

(** * Reasoning about runs *)

(** ** The descriptor allocator *)

Lemma filter_ge_shrink (n : nat) (fds : list nat) :
  n ∈ fds →
  length (filter (λ x, S n ≤ x) fds) < length (filter (λ x, n ≤ x) fds).
Proof.
  induction fds as [|a l IH]; intros Hin.
  - by apply elem_of_nil in Hin.
  - rewrite !filter_cons. apply elem_of_cons in Hin as [<-|Hin].
    + rewrite decide_False by lia. rewrite decide_True by lia. simpl.
      apply Nat.lt_succ_r. clear IH. induction l as [|b l IH]; [done|].
      rewrite !filter_cons. repeat case_decide; simpl; lia.
    + specialize (IH Hin). repeat case_decide; simpl; lia.
Qed.

Lemma lowest_from_fresh (fuel n : nat) (fds : list nat) :
  length (filter (λ x, n ≤ x) fds) ≤ fuel → lowest_from fuel n fds ∉ fds.
Proof.
  revert n. induction fuel as [|k IH]; intros n Hlen; simpl.
  - intros Hin. assert (n ∈ filter (λ x, n ≤ x) fds) as Hf
      by (apply list_elem_of_filter; split; [lia|done]).
    destruct (filter (λ x, n ≤ x) fds); [by apply elem_of_nil in Hf|].
    simpl in Hlen. lia.
  - case_bool_decide as Hin; [|done].
    apply IH. pose proof (filter_ge_shrink n fds Hin). lia.
Qed.

Lemma lowest_from_below (fuel n : nat) (fds : list nat) (m : nat) :
  n ≤ m → m < lowest_from fuel n fds → m ∈ fds.
Proof.
  revert n. induction fuel as [|k IH]; intros n Hle Hlt; simpl in Hlt; [lia|].
  case_bool_decide as Hin; [|lia].
  destruct (decide (m = n)) as [->|Hne]; [done|].
  apply (IH (S n)); [lia|done].
Qed.

(** The allocator returns a descriptor that is not in use ... *)
Lemma lowest_free_fresh (fds : list nat) : lowest_free fds ∉ fds.
Proof.
  apply lowest_from_fresh. apply length_filter.
Qed.

(** ... and every smaller descriptor is in use. *)
Lemma lowest_free_least (fds : list nat) (m : nat) :
  m < lowest_free fds → m ∈ fds.
Proof. apply lowest_from_below. lia. Qed.

(** ** The rules of symbolic execution *)

Lemma wp_ret {A} (a : A) s Q : Q (Ok a) s [] → wp (ret a) s Q.
Proof. done. Qed.

Lemma wp_raise {A} e s (Q : Result A → State → list Event → Prop) :
  Q (Raise e) s [] → wp (raise e) s Q.
Proof. done. Qed.

Lemma wp_gets {A} (f : State → A) s Q : Q (Ok (f s)) s [] → wp (gets f) s Q.
Proof. done. Qed.

Lemma wp_modify f s Q : Q (Ok ()) (f s) [] → wp (modify f) s Q.
Proof. done. Qed.

Lemma wp_emit e s Q : Q (Ok ()) s [e] → wp (emit e) s Q.
Proof. done. Qed.

Lemma wp_bind {A B} (m : M A) (f : A → M B) s Q :
  wp m s (λ r s1 e1,
    match r with
    | Ok a => wp (f a) s1 (λ r2 s2 e2, Q r2 s2 (e1 ++ e2))
    | Raise x => Q (Raise x) s1 e1
    end) →
  wp (bind m f) s Q.
Proof.
  unfold wp, bind. destruct (m s) as [[a|x] s1 e1]; simpl; [|done].
  by destruct (f a s1).
Qed.

Lemma wp_try_except {A} (m : M A) h s Q :
  wp m s (λ r s1 e1,
    match r with
    | Ok a => Q (Ok a) s1 e1
    | Raise x => wp (h x) s1 (λ r2 s2 e2, Q r2 s2 (e1 ++ e2))
    end) →
  wp (try_except m h) s Q.
Proof.
  unfold wp, try_except. destruct (m s) as [[a|x] s1 e1]; simpl; [done|].
  by destruct (h x s1).
Qed.

Lemma wp_syscall {A} o p (m : M A) s Q :
  match fault o p with
  | Some e => Q (Raise e) s []
  | None => wp m s Q
  end →
  wp (syscall o p m) s Q.
Proof. unfold wp, syscall. by destruct (fault o p). Qed.

Lemma wp_syscall_ok {A} o p (m : M A) s Q :
  fault o p = None → wp m s Q → wp (syscall o p m) s Q.
Proof. intros H. unfold wp, syscall. by rewrite H. Qed.

Lemma wp_syscall_raise {A} o p e (m : M A) s Q :
  fault o p = Some e → Q (Raise e) s [] → wp (syscall o p m) s Q.
Proof. intros H. unfold wp, syscall. by rewrite H. Qed.

Lemma wp_when (b : bool) m s Q :
  (if b then wp m s Q else Q (Ok ()) s []) → wp (when b m) s Q.
Proof. by destruct b. Qed.

Lemma wp_mono {A} (m : M A) s (Q Q' : Result A → State → list Event → Prop) :
  wp m s Q → (∀ r s' e, Q r s' e → Q' r s' e) → wp m s Q'.
Proof. unfold wp. auto. Qed.

Ltac wp_head m :=
  lazymatch m with
  | ?f _ _ _ _ _ _ _ => unfold f at 1
  | ?f _ _ _ _ _ _ => unfold f at 1
  | ?f _ _ _ _ _ => unfold f at 1
  | ?f _ _ _ _ => unfold f at 1
  | ?f _ _ _ => unfold f at 1
  | ?f _ _ => unfold f at 1
  | ?f _ => unfold f at 1
  | ?f => unfold f at 1
  end.

Ltac st_simpl :=
  lazy beta iota zeta delta
    [slot set_slot set_res set_environ set_fdtable set_exitstack
     environ fdtable _exitstack proc_composer proc_worker proc_dnf_json res
     truthy fileno sock_family pid returncode
     c_pid c_environ c_log os_getpid os_putenv preexec_setenv
     builtin_worker composer_api composer_api_port local_worker_api
     remote_worker_api weldr_api dnf_json dnf_json_port negb].

Ltac wp_step :=
  lazymatch goal with
  | |- wp (mbind _ _) _ _ => apply wp_bind
  | |- wp (bind _ _) _ _ => apply wp_bind
  | |- wp (mret _) _ _ => apply wp_ret
  | |- wp (ret _) _ _ => apply wp_ret
  | |- wp (raise _) _ _ => apply wp_raise
  | |- wp (gets _) _ _ => apply wp_gets
  | |- wp (modify _) _ _ => apply wp_modify
  | |- wp (emit _) _ _ => apply wp_emit
  | |- wp (when _ _) _ _ => apply wp_when
  | |- wp (try_except _ _) _ _ => apply wp_try_except
  | |- wp (syscall _ _ _) _ _ => apply wp_syscall
  | |- wp (if _ then _ else _) _ _ => fail
  | |- wp (match _ with _ => _ end) _ _ => fail
  | |- wp (run_except _ _) _ _ => fail
  | |- wp (run_cascade _) _ _ => fail
  | |- wp (λ _, _) _ _ => unfold wp at 1; cbn [result final events]
  | |- wp ?m _ _ => wp_head m
  end; st_simpl.

(** Evaluate the allocator and the assertions on concrete descriptor tables. *)
Ltac wp_calc :=
  repeat match goal with
  | |- context [lowest_free ?l] =>
      let v := eval vm_compute in (lowest_free l) in
      change (lowest_free l) with v
  | |- context [Nat.eqb ?a ?b] =>
      let v := eval vm_compute in (Nat.eqb a b) in
      change (Nat.eqb a b) with v
  end.

Ltac wp_run :=
  lazymatch goal with
  | |- wp _ _ ?Q =>
      let post := fresh "post" in
      set (post := Q);
      repeat first [wp_step | progress (cbn [app]; wp_calc; cbv iota)];
      subst post; cbv beta; cbn [app]
  end.

Section Respects.

Variable R : State → State → list Event → Prop.

Hypothesis R_refl : ∀ s, R s s [].

Hypothesis R_trans : ∀ s1 s2 s3 e1 e2,
    R s1 s2 e1 → R s2 s3 e2 → R s1 s3 (e1 ++ e2).

Lemma respects_ret {A} (a : A) : respects R (ret a).
Proof. intros s. apply R_refl. Qed.

Lemma respects_raise {A} e : respects R (raise e : M A).
Proof. intros s. apply R_refl. Qed.

Lemma respects_gets {A} (f : State → A) : respects R (gets f).
Proof. intros s. apply R_refl. Qed.

Lemma respects_bind {A B} (m : M A) (f : A → M B) :
  respects R m → (∀ a, respects R (f a)) → respects R (bind m f).
Proof.
  intros Hm Hf s. specialize (Hm s). unfold bind.
  destruct (m s) as [[a|x] s1 e1]; simpl in *; [|done].
  specialize (Hf a s1). destruct (f a s1) as [r s2 e2]; simpl in *.
  by eapply R_trans.
Qed.

Lemma respects_try_except {A} (m : M A) h :
  respects R m → (∀ x, respects R (h x)) → respects R (try_except m h).
Proof.
  intros Hm Hh s. specialize (Hm s). unfold try_except.
  destruct (m s) as [[a|x] s1 e1]; simpl in *; [done|].
  specialize (Hh x s1). destruct (h x s1) as [r s2 e2]; simpl in *.
  by eapply R_trans.
Qed.

Lemma respects_syscall {A} o p (m : M A) : respects R m → respects R (syscall o p m).
Proof.
  intros Hm s. unfold syscall. destruct (fault o p); [apply R_refl|apply Hm].
Qed.

Lemma respects_when b m : respects R m → respects R (when b m).
Proof. intros Hm. destruct b; [done|apply respects_ret]. Qed.

Lemma respects_wp {A} (m : M A) s (Q : Result A → State → list Event → Prop) :
  respects R m → (∀ r s' e, R s s' e → Q r s' e) → wp m s Q.
Proof. intros Hm HQ. apply HQ, Hm. Qed.

End Respects.

Ltac respects_step Hr Ht :=
  lazymatch goal with
  | |- respects _ (mbind _ _) => apply (respects_bind _ Ht); [|intros ?]
  | |- respects _ (bind _ _) => apply (respects_bind _ Ht); [|intros ?]
  | |- respects _ (mret _) => apply (respects_ret _ Hr)
  | |- respects _ (ret _) => apply (respects_ret _ Hr)
  | |- respects _ (raise _) => apply (respects_raise _ Hr)
  | |- respects _ (gets _) => apply (respects_gets _ Hr)
  | |- respects _ (when _ _) => apply (respects_when _ Hr)
  | |- respects _ (try_except _ _) =>
      apply (respects_try_except _ Ht); [|intros ?]
  | |- respects _ (syscall _ _ _) => apply (respects_syscall _ Hr)
  | |- respects _ (if ?b then _ else _) => destruct b
  | |- respects _ (match ?x with _ => _ end) => destruct x
  end.

(** ** Socket preparation leaves the children alone *)

Lemma R_prep_refl s : R_prep s s [].
Proof. by repeat split. Qed.

Lemma R_prep_trans s1 s2 s3 e1 e2 :
  R_prep s1 s2 e1 → R_prep s2 s3 e2 → R_prep s1 s3 (e1 ++ e2).
Proof.
  unfold R_prep, forks, execs, sigs, reaps, closed, ptrace.
  intros (Hs & Hr & H1 & H2 & H3 & H4 & H5 & H6)
         (Hs' & Hr' & H1' & H2' & H3' & H4' & H5' & H6').
  rewrite !omap_app, H1, H2, H3, H4, H5, H6, H1', H2', H3', H4', H5', H6'.
  repeat split; try done; [|congruence].
  intros c. by rewrite Hs', Hs.
Qed.

Ltac respects_prim :=
  let s := fresh "s" in
  intros s; hnf; cbn [result final events]; st_simpl.

Lemma prepare_sockets_respects_R_prep o args :
  respects R_prep (_prepare_sockets o args).
Proof.
  unfold _prepare_sockets, print_stderr, socket_socket, enter_context_closing,
    sock_bind, sock_listen, setsockopt, setenv.
  repeat first
    [ respects_step R_prep_refl R_prep_trans
    | match goal with |- respects _ (let '(_, _) := ?x in _) => destruct x end
    | by (respects_prim; repeat split; try done; intros []) ].
Qed.

(** Lookups in an environment built by successive assignments. *)
Ltac env_lookup :=
  repeat first [rewrite lookup_insert_eq | rewrite lookup_insert_ne by done].

Lemma run_except_failed o e :
  e ≠ KeyboardInterrupt → run_except o e = run_failed o e.
Proof. by destruct e. Qed.

Ltac wp_branch :=
  lazymatch goal with
  | |- match fault ?o ?p with _ => _ end =>
      let E := fresh "Hfault" in destruct (fault o p) as [?|] eqn:E
  | |- wp (if ?b then _ else _) _ _ =>
      let E := fresh "Hif" in destruct b eqn:E
  | |- wp (run_except ?o KeyboardInterrupt) _ _ =>
      change (run_except o KeyboardInterrupt) with (run_interrupted o)
  | |- wp (run_except ?o ?e) _ _ =>
      let E := fresh "Hexn" in
      destruct (decide (e = KeyboardInterrupt)) as [E|E];
      [ first [ by (exfalso; congruence)
              | rewrite E;
                change (run_except o KeyboardInterrupt) with (run_interrupted o) ]
      | rewrite (run_except_failed o e E) ]
  | |- (if ?b then _ else _) =>
      let E := fresh "Hif" in destruct b eqn:E
  end.

Ltac wp_explore :=
  lazymatch goal with
  | |- wp _ _ ?Q =>
      let post := fresh "post" in
      set (post := Q);
      repeat first [wp_step | wp_branch | progress (cbn [app]; cbv iota)];
      subst post; cbv beta; cbn [app]
  end.

Lemma prepare_sockets_post o args s :
  prepare_sockets_spec o args s (result (_prepare_sockets o args s))
                                (final (_prepare_sockets o args s)).
Proof.
  change (wp (_prepare_sockets o args) s (λ r s' _,
            prepare_sockets_spec o args s r s')).
  destruct args as [bw ca cap lw rw wa dj djp], s as [E F K pc pw pd r0].
  unfold prepare_sockets_spec, enabled_socket_names.
  destruct wa, ca, lw, rw; st_simpl; wp_explore.
  all: split;
    [ intros socks [= <-]
    | intros -> e' [= <-];
      first [ by (repeat match goal with
                         | H : (_ =? _) = _ |- _ =>
                             vm_compute in H; try discriminate H; clear H
                         end; fail)
            | (eexists; solve [eauto]) ] ].
  all: repeat match goal with
       | H : (_ =? _) = true |- _ => apply Nat.eqb_eq in H
       end.
  all: (split; [|split; [|split]]);
    [ by env_lookup
    | by env_lookup
    | cbn [map fileno length app seq Nat.add] in *; congruence
    | cbn [map fileno]; intros fd Hfd; rewrite ?elem_of_app;
      repeat (apply elem_of_cons in Hfd as [->|Hfd];
              [rewrite !list_elem_of_singleton; tauto|]);
      by apply elem_of_nil in Hfd ].
Qed.

(** ** The shape of [Cli.run] *)

Lemma run_unfold o args s :
  run o args s =
    match _prepare_sockets o args (run_init s) with
    | Out (Ok socks) s1 e1 =>
        match supervise o args socks s1 with
        | Out r s2 e2 => Out r s2 (e1 ++ e2)
        end
    | Out (Raise x) s1 e1 => Out (Raise x) s1 e1
    end.
Proof.
  unfold run, run_init, supervise, mbind, M_bind, bind, modify. simpl.
  destruct (_prepare_sockets o args _) as [[socks|x] s1 e1]; [|done].
  by destruct (try_except _ _ s1).
Qed.

Lemma run_init_slot c s : slot c (run_init s) = None.
Proof. by destruct c. Qed.

Lemma run_init_res s : res (run_init s) = 0%Z.
Proof. done. Qed.

(** ** What the spawned programs are given *)

Lemma R_img_refl fdn fds act pfds s : R_img fdn fds act pfds s s [].
Proof. by intros H. Qed.

Lemma R_img_trans fdn fds act pfds s1 s2 s3 e1 e2 :
  R_img fdn fds act pfds s1 s2 e1 → R_img fdn fds act pfds s2 s3 e2 →
  R_img fdn fds act pfds s1 s3 (e1 ++ e2).
Proof.
  intros H1 H2 H. destruct (H1 H) as [H' F1]. destruct (H2 H') as [H'' F2].
  split; [done|]. by apply Forall_app.
Qed.

Lemma spawn_worker_R_img o fdn fds act pfds :
  respects (R_img fdn fds act pfds) (_spawn_worker o).
Proof.
  intros s (Hn & Hs & Ha).
  change (wp (_spawn_worker o) s (λ _ s' e,
    env_ready fdn fds act s' ∧ Forall (image_ok fdn fds act pfds) e)).
  wp_explore; (split; [done|]); repeat constructor; cbn; by env_lookup.
Qed.

Lemma spawn_composer_R_img o fdn fds act socks :
  respects (R_img fdn fds act (map fileno socks)) (_spawn_composer o socks).
Proof.
  intros s (Hn & Hs & Ha).
  change (wp (_spawn_composer o socks) s (λ _ s' e,
    env_ready fdn fds act s' ∧ Forall (image_ok fdn fds act (map fileno socks)) e)).
  wp_explore; (split; [by repeat split; cbn; env_lookup|]);
    repeat constructor; cbn; by env_lookup.
Qed.

Lemma spawn_dnf_json_R_img o args fdn fds act pfds :
  respects (R_img fdn fds act pfds) (_spawn_dnf_json o args).
Proof.
  intros s (Hn & Hs & Ha).
  change (wp (_spawn_dnf_json o args) s (λ _ s' e,
    env_ready fdn fds act s' ∧ Forall (image_ok fdn fds act pfds) e)).
  destruct s as [E F K pc pw pd r0]; cbn in Hn, Hs, Ha.
  wp_explore.
  all: split;
    [repeat split; cbn; try done; intros fd Hfd; apply elem_of_app; auto|].
  all: repeat constructor; cbn; env_lookup; try done.
  all: eexists; repeat split; try done; env_lookup; try done.
  all: intros Hin; apply Ha in Hin; by apply lowest_free_fresh in Hin.
Qed.

Ltac respects_auto Hr Ht leaf := repeat first [respects_step Hr Ht | leaf].

Ltac unfold_supervise :=
  unfold supervise, run_try, run_except, run_interrupted, run_failed,
    terminate, kill, send_signal, wait.

Lemma supervise_R_img o args fdn fds act socks :
  respects (R_img fdn fds act (map fileno socks)) (supervise o args socks).
Proof.
  unfold_supervise.
  respects_auto (R_img_refl fdn fds act (map fileno socks))
                (R_img_trans fdn fds act (map fileno socks))
    ltac:(first
      [ apply spawn_worker_R_img
      | apply spawn_composer_R_img
      | apply spawn_dnf_json_R_img
      | by (let s := fresh "s" in let H := fresh "H" in
            intros s H; repeat case_match; cbn [final events];
            (split; [exact H | repeat constructor])) ]).
Qed.

Lemma Forall_execs (P : Event → Prop) (evs : list Event) c img :
  Forall P evs → (c, img) ∈ execs evs → P (EExec c img).
Proof.
  unfold execs. intros HF Hin. apply list_elem_of_omap in Hin as (e & He & Heq).
  rewrite Forall_forall in HF. destruct e; try discriminate.
  injection Heq as -> ->. by apply HF.
Qed.

(** Every program image of a run, whatever the faults: the activation
    variables it sees are the ones written during socket preparation. *)
Lemma run_images o args s c img :
  (c, img) ∈ execs (events (run o args s)) →
  image_ok (Some (join ":" (enabled_socket_names args)))
           (Some (str (length (enabled_socket_names args))))
           (seq 3 (length (enabled_socket_names args)))
           (seq 3 (length (enabled_socket_names args)))
           (EExec c img).
Proof.
  rewrite run_unfold.
  pose proof (prepare_sockets_post o args (run_init s)) as Hpost.
  pose proof (prepare_sockets_respects_R_prep o args (run_init s)) as Hprep.
  destruct (_prepare_sockets o args (run_init s)) as [[socks|x] s1 e1];
    cbn [result final events] in *.
  - destruct Hpost as [Hpost _].
    destruct (Hpost socks eq_refl) as (Hn & Hs & Hfd & Hin).
    pose proof (supervise_R_img o args
      (Some (join ":" (enabled_socket_names args)))
      (Some (str (length (enabled_socket_names args))))
      (seq 3 (length (enabled_socket_names args))) socks s1) as Himg.
    destruct (supervise o args socks s1) as [r s2 e2]; cbn [final events] in *.
    destruct Hprep as (_ & _ & _ & Hex & _).
    unfold execs in *. rewrite omap_app, Hex, app_nil_l.
    intros Hc. rewrite Hfd in Himg.
    destruct Himg as [_ HF]; [|by eapply Forall_execs].
    repeat split; try done. intros fd. rewrite <- Hfd. apply Hin.
  - destruct Hprep as (_ & _ & _ & Hex & _). rewrite Hex.
    intros Hc. by apply elem_of_nil in Hc.
Qed.

(** ** The scenarios of the specification, run on the model *)

(** Scenario A: only the weldr API. *)
Example scenario_A :
  let out := main oracle_quiet
               {| builtin_worker := false; composer_api := false;
                  composer_api_port := 443; local_worker_api := false;
                  remote_worker_api := false; weldr_api := true;
                  dnf_json := false; dnf_json_port := 0 |} (boot ∅) in
  result out = Ok 3%Z ∧ opened (events out) = [3] ∧ closed (events out) = [3] ∧
  ptrace (events out) = [Spawned Composer; Reaped Composer 3%Z].
Proof. vm_compute. by repeat split. Qed.

(** Scenario B: composer API and local worker; the composer exits with 3. *)
Example scenario_B :
  let out := main oracle_quiet
               {| builtin_worker := true; composer_api := true;
                  composer_api_port := 443; local_worker_api := true;
                  remote_worker_api := false; weldr_api := false;
                  dnf_json := false; dnf_json_port := 0 |} (boot ∅) in
  result out = Ok 3%Z ∧ opened (events out) = [3; 4] ∧
  ptrace (events out) = [Spawned Worker; Spawned Composer; Reaped Composer 3%Z;
                         Signalled Worker SIGTERM; Reaped Worker 0%Z].
Proof. vm_compute. by repeat split. Qed.

(** Scenario C: nothing enabled. *)
Example scenario_C :
  let out := main oracle_quiet
               {| builtin_worker := false; composer_api := false;
                  composer_api_port := 443; local_worker_api := false;
                  remote_worker_api := false; weldr_api := false;
                  dnf_json := false; dnf_json_port := 0 |} (boot ∅) in
  result out = Ok 0%Z ∧ events out = [] ∧
  environ (final out) !! "LISTEN_FDS" = Some "0" ∧
  environ (final out) !! "LISTEN_FDNAMES" = Some EmptyString.
Proof. vm_compute. by repeat split. Qed.

(** Scenario D: dnf-json alone; the run waits for it and returns 0. *)
Example scenario_D :
  let out := main oracle_helper_fails args_dnf_only (boot ∅) in
  result out = Ok 0%Z ∧ opened (events out) = [3] ∧ closed (events out) = [3] ∧
  ptrace (events out) = [Spawned DnfJson; Reaped DnfJson 7%Z].
Proof. vm_compute. by repeat split. Qed.


(** * The activation environment: C1, C2, C3, C10 *)

(** C1.  For every subset of the weldr-API, composer-API, local-worker-API
    and remote-worker-API toggles, socket preparation leaves in
    [LISTEN_FDNAMES] the colon-joined logical names of the enabled sockets in
    creation order and in [LISTEN_FDS] their number, which is the number of
    sockets created; and this is what every composer launched by [run] finds
    in its environment, whatever faults the run meets. *)
Theorem C1_activation_names o args s :
  (∀ socks, result (_prepare_sockets o args s) = Ok socks →
     environ (final (_prepare_sockets o args s)) !! "LISTEN_FDNAMES"
       = Some (join ":" (enabled_socket_names args)) ∧
     environ (final (_prepare_sockets o args s)) !! "LISTEN_FDS"
       = Some (str (length socks)) ∧
     length socks = length (enabled_socket_names args)) ∧
  (∀ img, (Composer, img) ∈ execs (events (run o args s)) →
     im_env img !! "LISTEN_FDNAMES"
       = Some (join ":" (enabled_socket_names args)) ∧
     im_env img !! "LISTEN_FDS"
       = Some (str (length (enabled_socket_names args)))).
Proof.
  split.
  - intros socks Hr.
    destruct (prepare_sockets_post o args s) as [Hpost _].
    destruct (Hpost socks Hr) as (Hn & Hs & Hfd & _).
    assert (length socks = length (enabled_socket_names args)) as Hlen.
    { rewrite <- (length_map fileno), Hfd. apply length_seq. }
    by rewrite Hlen.
  - intros img Hin. apply run_images in Hin. cbn in Hin. tauto.
Qed.

Lemma C1_activation_names_witness :
  ∃ img,
    (Composer, img) ∈ execs (events (run oracle_quiet args_full (boot ∅))) ∧
    im_env img !! "LISTEN_FDNAMES"
      = Some "osbuild-composer-api.socket:osbuild-local-worker.socket" ∧
    im_env img !! "LISTEN_FDS" = Some "2".
Proof.
  assert (∃ img, execs (events (run oracle_quiet args_full (boot ∅))) !! 2
                 = Some (Composer, img)) as [img Himg].
  { eexists. vm_compute. reflexivity. }
  apply list_elem_of_lookup_2 in Himg.
  exists img. split; [exact Himg|].
  exact (proj2 (C1_activation_names oracle_quiet args_full (boot ∅)) img Himg).
Defined.

(** C2.  For every subset of enabled features the descriptors of the
    activation sockets are 3, 4, ... with no gap for a disabled role, and
    these are the descriptors passed to the composer.  When the supervisor
    enters socket preparation with only the three standard streams open, an
    exception leaving it is always a failed socket call: the assertion on the
    running index never fails. *)
Theorem C2_descriptors_contiguous o args s :
  (∀ socks, result (_prepare_sockets o args s) = Ok socks →
     map fileno socks = seq 3 (length (enabled_socket_names args))) ∧
  (fdtable s = [0; 1; 2] →
     ∀ e, result (_prepare_sockets o args s) = Raise e → socket_fault o e) ∧
  (∀ img, (Composer, img) ∈ execs (events (run o args s)) →
     im_pass_fds img = seq 3 (length (enabled_socket_names args))).
Proof.
  destruct (prepare_sockets_post o args s) as [Hpost Hassert].
  split; [|split].
  - intros socks Hr. by destruct (Hpost socks Hr) as (_ & _ & Hfd & _).
  - exact Hassert.
  - intros img Hin. apply run_images in Hin. cbn in Hin. tauto.
Qed.

Lemma C2_descriptors_contiguous_witness :
  (∀ socks, result (_prepare_sockets oracle_quiet args_full (boot ∅)) = Ok socks →
     map fileno socks = [3; 4]) ∧
  (∀ e, result (_prepare_sockets oracle_bind_fails args_full (boot ∅)) = Raise e →
     socket_fault oracle_bind_fails e).
Proof.
  split.
  - exact (proj1 (C2_descriptors_contiguous oracle_quiet args_full (boot ∅))).
  - exact (proj1 (proj2 (C2_descriptors_contiguous oracle_bind_fails args_full
                           (boot ∅))) eq_refl).
Defined.

(** The numbering relies on socket preparation being entered with the
    standard streams only, as the source notes ("we rely on this being called
    early"): with a further descriptor open, the assertion stops the
    start-up. *)
Example assertion_guards_numbering :
  result (_prepare_sockets oracle_quiet args_weldr_dnf
            (set_fdtable [0; 1; 2; 3] (boot ∅))) = Raise AssertionError.
Proof. vm_compute. reflexivity. Qed.

(** C3.  The composer is launched in two phases: the child is forked, then,
    inside the child and before the program is executed, [LISTEN_PID] is set
    to the child's own pid; the program then starts with that value in its
    environment, while the supervisor's own environment is left as it was.
    Every composer a run launches sees its own pid in [LISTEN_PID]. *)
Theorem C3_listen_pid o args socks s :
  (fault o (at_Popen Composer) = None →
     ∃ img,
       events (_spawn_composer o socks s) =
         [EFork Composer (fork_pid o Composer);
          EPutenv (fork_pid o Composer) "LISTEN_PID" (str (fork_pid o Composer));
          EExec Composer img] ∧
       im_pid img = fork_pid o Composer ∧
       im_env img !! "LISTEN_PID" = Some (str (fork_pid o Composer)) ∧
       environ (final (_spawn_composer o socks s)) !! "LISTEN_PID"
         = environ s !! "LISTEN_PID") ∧
  (∀ img, (Composer, img) ∈ execs (events (run o args s)) →
     im_env img !! "LISTEN_PID" = Some (str (im_pid img))).
Proof.
  split.
  - intros Hf. unfold _spawn_composer, Popen, syscall, setenv, modify, mbind,
      M_bind, bind. cbn. rewrite Hf. cbn.
    eexists. split; [reflexivity|]. cbn. by env_lookup.
  - intros img Hin. apply run_images in Hin. cbn in Hin. tauto.
Qed.

Lemma C3_listen_pid_witness :
  ∃ img,
    events (_spawn_composer oracle_quiet [] (boot ∅)) =
      [EFork Composer 102; EPutenv 102 "LISTEN_PID" "102"; EExec Composer img] ∧
    im_pid img = 102 ∧
    im_env img !! "LISTEN_PID" = Some "102" ∧
    environ (final (_spawn_composer oracle_quiet [] (boot ∅))) !! "LISTEN_PID"
      = None.
Proof.
  exact (proj1 (C3_listen_pid oracle_quiet args_full [] (boot ∅)) eq_refl).
Defined.

(** C10.  The activation variables are written to the supervisor's own
    environment during socket preparation, before any child exists.  Every
    helper therefore starts with the composer's [LISTEN_FDNAMES] in its
    environment: the worker also with the composer's [LISTEN_FDS], and with
    no descriptor passed; dnf-json with [LISTEN_FDS] overridden to 1 and with
    its own socket only, which is none of the activation descriptors. *)
Theorem C10_helpers_inherit_activation_env o args s c img :
  (c, img) ∈ execs (events (run o args s)) →
  c ≠ Composer →
  forks (events (_prepare_sockets o args (run_init s))) = [] ∧
  im_env img !! "LISTEN_FDNAMES" = Some (join ":" (enabled_socket_names args)) ∧
  match c with
  | Worker =>
      im_env img !! "LISTEN_FDS"
        = Some (str (length (enabled_socket_names args))) ∧
      im_pass_fds img = []
  | DnfJson =>
      im_env img !! "LISTEN_FDS" = Some "1" ∧
      ∃ fd, im_pass_fds img = [fd] ∧
            fd ∉ seq 3 (length (enabled_socket_names args))
  | Composer => True
  end.
Proof.
  intros Hin Hc. apply run_images in Hin.
  split; [apply (prepare_sockets_respects_R_prep o args (run_init s))|].
  destruct c; [done|..]; cbn in Hin.
  - tauto.
  - destruct Hin as (? & ? & fd & ? & ? & ?). eauto.
Qed.

Lemma C10_helpers_inherit_activation_env_witness :
  ∃ img,
    (DnfJson, img) ∈ execs (events (run oracle_quiet args_full (boot ∅))) ∧
    im_env img !! "LISTEN_FDNAMES"
      = Some "osbuild-composer-api.socket:osbuild-local-worker.socket" ∧
    im_env img !! "LISTEN_FDS" = Some "1" ∧
    ∃ fd, im_pass_fds img = [fd] ∧ fd ∉ [3; 4].
Proof.
  assert (∃ img, execs (events (run oracle_quiet args_full (boot ∅))) !! 1
                 = Some (DnfJson, img)) as [img Himg].
  { eexists. vm_compute. reflexivity. }
  apply list_elem_of_lookup_2 in Himg.
  exists img. split; [exact Himg|].
  exact (proj2 (C10_helpers_inherit_activation_env oracle_quiet args_full
                  (boot ∅) DnfJson img Himg ltac:(discriminate))).
Defined.

(** * Sockets and the exit stack: C9 *)

Lemma R_sock_refl s : R_sock s s [].
Proof.
  repeat split; cbn; try done.
  - by rewrite app_nil_r.
  - intros fd Hfd. by apply elem_of_nil in Hfd.
  - constructor.
Qed.

Lemma R_sock_trans s1 s2 s3 e1 e2 :
  R_sock s1 s2 e1 → R_sock s2 s3 e2 → R_sock s1 s3 (e1 ++ e2).
Proof.
  unfold R_sock, closed, opened.
  intros (Hc1 & Hf1 & Hk1 & Hn1 & Hd1) (Hc2 & Hf2 & Hk2 & Hn2 & Hd2).
  rewrite !omap_app, Hc1, Hc2. repeat split; try done.
  - by rewrite Hf2, Hf1, app_assoc.
  - by rewrite Hk2, Hk1, reverse_app, app_assoc.
  - intros fd [Hfd|Hfd]%elem_of_app; [by apply Hn1|].
    apply Hn2 in Hfd. rewrite Hf1 in Hfd. intros Hin. apply Hfd.
    apply elem_of_app. by left.
  - apply NoDup_app. repeat split; try done.
    intros fd Hfd1 Hfd2. apply Hn2 in Hfd2. apply Hfd2. rewrite Hf1.
    apply elem_of_app. by right.
Qed.

Lemma socket_register_R_sock {A} o k f (rest : socket → M A) :
  (∀ sock, respects R_sock (rest sock)) →
  respects R_sock
    (socket_socket o k f ≫= λ sock, enter_context_closing sock ≫= λ _, rest sock).
Proof.
  intros Hrest s.
  unfold socket_socket, enter_context_closing, syscall, modify, mbind, M_bind, bind.
  destruct (fault o (at_socket k)); [apply R_sock_refl|]. cbn.
  set (fd := lowest_free (fdtable s)).
  set (s1 := set_exitstack _ _).
  specialize (Hrest {| fileno := fd; sock_family := f |} s1).
  destruct (rest _ s1) as [r s2 e2]. cbn in *.
  apply (R_sock_trans s s1 s2 [ESocket fd f] e2); [|done].
  repeat split; cbn; try done.
  - intros x ->%list_elem_of_singleton. apply lowest_free_fresh.
  - apply NoDup_singleton.
Qed.

Lemma R_sock_quiet s s' e :
  fdtable s' = fdtable s → _exitstack s' = _exitstack s →
  opened e = [] → closed e = [] → R_sock s s' e.
Proof.
  intros Hf Hk Ho Hc. unfold R_sock. rewrite Hf, Hk, Ho, Hc, app_nil_r.
  repeat split; try done.
  - intros fd Hfd. by apply elem_of_nil in Hfd.
  - constructor.
Qed.

Ltac R_sock_leaf :=
  let s := fresh "s" in
  intros s; repeat case_match; by apply R_sock_quiet.

Lemma run_R_sock o args : respects R_sock (run o args).
Proof.
  unfold run. unfold_supervise.
  unfold _prepare_sockets, _spawn_worker, _spawn_composer, _spawn_dnf_json,
    Popen, print_stderr, sock_bind, sock_listen, setsockopt, setenv.
  repeat first
    [ apply socket_register_R_sock; intros ?
    | match goal with
      | |- respects _ (let '(_, _) := ?x in _) => destruct x
      end
    | respects_step R_sock_refl R_sock_trans
    | R_sock_leaf ].
Qed.

Lemma filter_keep (P : nat → Prop) `{!∀ x, Decision (P x)} (l : list nat) :
  (∀ x, x ∈ l → P x) → filter P l = l.
Proof.
  induction l as [|a l IH]; intros Hall; [done|].
  rewrite filter_cons, decide_True by (apply Hall; left).
  f_equal. apply IH. intros x Hx. apply Hall. by right.
Qed.

Lemma filter_drop (P : nat → Prop) `{!∀ x, Decision (P x)} (l : list nat) :
  (∀ x, x ∈ l → ¬ P x) → filter P l = [].
Proof.
  induction l as [|a l IH]; intros Hall; [done|].
  rewrite filter_cons, decide_False by (apply Hall; left).
  apply IH. intros x Hx. apply Hall. by right.
Qed.

Lemma close_all_spec l s :
  result (close_all l s) = Ok () ∧
  events (close_all l s) = map (λ k, EClose (fileno k)) l ∧
  fdtable (final (close_all l s))
    = filter (λ fd, fd ∉ map fileno l) (fdtable s) ∧
  _exitstack (final (close_all l s)) = _exitstack s.
Proof.
  revert s. induction l as [|k l IH]; intros s; cbn.
  - repeat split. symmetry. apply filter_keep.
    intros fd _ Hin. by apply elem_of_nil in Hin.
  - unfold mbind, M_bind, bind, sock_close. cbn.
    destruct (IH (set_fdtable (filter (λ fd, fd ≠ fileno k) (fdtable s)) s))
      as (Hr & He & Hf & Hk).
    destruct (close_all l _) as [r s2 e2]. cbn in *. subst r e2.
    repeat split; [|done]. rewrite Hf. rewrite list_filter_filter.
    apply list_filter_iff. intros fd. rewrite elem_of_cons. tauto.
Qed.

Lemma count_NoDup (l : list nat) (x : nat) :
  NoDup l → x ∈ l → length (filter (λ y, y = x) l) = 1.
Proof.
  induction 1 as [|a l Hnin Hnd IH]; intros Hin; [by apply elem_of_nil in Hin|].
  rewrite filter_cons. apply elem_of_cons in Hin as [->|Hin].
  - rewrite decide_True by done. cbn. f_equal.
    rewrite filter_drop; [done|]. by intros y Hy ->.
  - rewrite decide_False by (by intros ->). by apply IH.
Qed.

Lemma closed_map_EClose (l : list socket) :
  closed (map (λ k, EClose (fileno k)) l) = map fileno l.
Proof. induction l as [|k l IH]; [done|]. cbn. by f_equal. Qed.

Lemma opened_map_EClose (l : list socket) :
  opened (map (λ k, EClose (fileno k)) l) = [].
Proof. by induction l. Qed.

Lemma forks_map_EClose (l : list socket) :
  forks (map (λ k, EClose (fileno k)) l) = [].
Proof. by induction l. Qed.

(** What [main] does around [run]. *)
Lemma main_unfold o args s :
  main o args s =
    match run o args (set_exitstack [] s) with
    | Out r s1 e1 =>
        match close_all (_exitstack s1) (set_exitstack [] s1) with
        | Out _ s2 e2 => Out r s2 (e1 ++ e2)
        end
    end.
Proof.
  unfold main, __enter__, __exit__, exitstack_close, mbind, M_bind, bind,
    modify, gets. cbn.
  destruct (run o args _) as [r s1 e1]. cbn.
  by destruct (close_all _ _) as [? s2 e2].
Qed.

(** C9.  Whatever the features and whatever faults strike (normal
    completion, interrupt, internal failure, failed start-up), every socket
    created during a run of the program is closed exactly once when it ends,
    nothing else is closed, and the descriptor table is back to what it was.
    In particular, when socket preparation itself fails, the exception leaves
    the program before any child is forked, and the sockets created up to
    that point are closed all the same. *)
Theorem C9_sockets_closed_once o args s :
  (∀ fd, fd ∈ opened (events (main o args s)) →
     length (filter (λ x, x = fd) (closed (events (main o args s)))) = 1) ∧
  (∀ fd, fd ∈ closed (events (main o args s)) →
     fd ∈ opened (events (main o args s))) ∧
  fdtable (final (main o args s)) = fdtable s ∧
  _exitstack (final (main o args s)) = [] ∧
  result (main o args s) = result (run o args (set_exitstack [] s)) ∧
  (∀ e, result (_prepare_sockets o args (run_init (set_exitstack [] s))) = Raise e →
     result (main o args s) = Raise e ∧ forks (events (main o args s)) = []).
Proof.
  rewrite main_unfold.
  pose proof (run_R_sock o args (set_exitstack [] s)) as (Hc & Hf & Hk & Hfresh & Hnd).
  pose proof (run_unfold o args (set_exitstack [] s)) as Hrun.
  pose proof (prepare_sockets_respects_R_prep o args (run_init (set_exitstack [] s)))
    as (_ & _ & Hforks & _).
  destruct (run o args (set_exitstack [] s)) as [r s1 e1].
  cbn [final events _exitstack fdtable set_exitstack map] in Hc, Hf, Hk, Hfresh, Hnd.
  rewrite app_nil_r in Hk.
  pose proof (close_all_spec (_exitstack s1) (set_exitstack [] s1))
    as (_ & He & Htab & Hst).
  destruct (close_all (_exitstack s1) (set_exitstack [] s1)) as [r2 s2 e2].
  cbn [result final events] in *. subst e2.
  unfold opened, closed, forks in *.
  rewrite !omap_app.
  fold (opened e1) (closed e1) (forks e1) in *.
  fold (opened (map (λ k, EClose (fileno k)) (_exitstack s1))).
  fold (closed (map (λ k, EClose (fileno k)) (_exitstack s1))).
  fold (forks (map (λ k, EClose (fileno k)) (_exitstack s1))).
  rewrite opened_map_EClose, closed_map_EClose, forks_map_EClose, Hc, Hk.
  rewrite !app_nil_r, app_nil_l.
  repeat split.
  - intros fd Hfd. rewrite filter_reverse, length_reverse. by apply count_NoDup.
  - intros fd Hfd. by rewrite elem_of_reverse in Hfd.
  - rewrite Htab, Hk. cbn [fdtable set_exitstack]. rewrite Hf, filter_app.
    rewrite filter_keep.
    + rewrite filter_drop; [apply app_nil_r|].
      intros x Hx Hn. apply Hn. by rewrite elem_of_reverse.
    + intros x Hx Hr. rewrite elem_of_reverse in Hr. by apply (Hfresh x).
  - done.
  - destruct (_prepare_sockets o args _) as [[socks|x] sp ep];
      cbn in H; [discriminate|].
    injection H as ->. by injection Hrun as -> _ _.
  - destruct (_prepare_sockets o args _) as [[socks|x] sp ep];
      cbn in H; [discriminate|].
    cbn in Hforks. by injection Hrun as _ _ ->.
Qed.

Lemma C9_sockets_closed_once_witness :
  length (filter (λ x, x = 3)
            (closed (events (main oracle_bind_fails args_full (boot ∅))))) = 1 ∧
  result (main oracle_bind_fails args_full (boot ∅)) = Raise OSError ∧
  forks (events (main oracle_bind_fails args_full (boot ∅))) = [].
Proof.
  pose proof (C9_sockets_closed_once oracle_bind_fails args_full (boot ∅))
    as (H1 & _ & _ & _ & _ & H2).
  split.
  - apply H1. apply (list_elem_of_lookup_2 _ 0). vm_compute. reflexivity.
  - apply H2. vm_compute. reflexivity.
Defined.

(** * Supervision: C5, C7, C8, C6, C4 *)

(** [run] either fails in socket preparation, before anything has happened
    to any child, or enters its [try] statement with no child and [res = 0]. *)
Lemma run_cases o args s :
  (∃ x, result (_prepare_sockets o args (run_init s)) = Raise x ∧
        result (run o args s) = Raise x ∧
        ptrace (events (run o args s)) = []) ∨
  (∃ socks E F K e0,
     result (_prepare_sockets o args (run_init s)) = Ok socks ∧
     result (run o args s) = result (supervise o args socks (entry E F K)) ∧
     events (run o args s) = e0 ++ events (supervise o args socks (entry E F K)) ∧
     ptrace e0 = []).
Proof.
  rewrite run_unfold.
  pose proof (prepare_sockets_respects_R_prep o args (run_init s))
    as (Hslot & Hres & _ & _ & _ & _ & _ & Hpt).
  destruct (_prepare_sockets o args (run_init s)) as [[socks|x] s1 e1];
    cbn [result final events] in *.
  - right. destruct s1 as [E F K pc pw pd r0].
    pose proof (Hslot Composer) as Hc. pose proof (Hslot Worker) as Hw.
    pose proof (Hslot DnfJson) as Hd. cbn in Hc, Hw, Hd, Hres. subst.
    exists socks, E, F, K, e1. unfold entry.
    by destruct (supervise o args socks _) as [r s2 e2].
  - left. by exists x.
Qed.

Lemma ptrace_app e1 e2 : ptrace (e1 ++ e2) = ptrace e1 ++ ptrace e2.
Proof. apply omap_app. Qed.

Lemma forks_ptrace e :
  forks e = omap (λ p, match p with Spawned c => Some c | _ => None end) (ptrace e).
Proof.
  unfold forks, ptrace. induction e as [|[] e IH]; cbn; by rewrite ?IH.
Qed.

Lemma sigs_ptrace e :
  sigs e = omap (λ p, match p with Signalled c g => Some (c, g) | _ => None end)
                (ptrace e).
Proof.
  unfold sigs, ptrace. induction e as [|[] e IH]; cbn; by rewrite ?IH.
Qed.

Lemma reaps_ptrace e :
  reaps e = omap (λ p, match p with Reaped c z => Some (c, z) | _ => None end)
                 (ptrace e).
Proof.
  unfold reaps, ptrace. induction e as [|[] e IH]; cbn; by rewrite ?IH.
Qed.

Lemma run_boot o args env0 :
  sockets_ok o →
  ∃ socks E F K e0,
    result (run o args (boot env0)) = result (supervise o args socks (entry E F K)) ∧
    events (run o args (boot env0))
      = e0 ++ events (supervise o args socks (entry E F K)) ∧
    ptrace e0 = [].
Proof.
  intros Hok.
  destruct (run_cases o args (boot env0)) as [(x & Hx & _)|H].
  - destruct (prepare_sockets_post o args (run_init (boot env0))) as [_ Hassert].
    destruct (Hassert eq_refl x Hx) as [k Hk].
    destruct (Hok k) as (H1 & H2 & H3). rewrite H1, H2, H3 in Hk.
    by destruct Hk as [?|[?|?]].
  - destruct H as (socks & E & F & K & e0 & _ & ? & ? & ?). eauto 10.
Qed.

Ltac wp_explore_with ftac :=
  lazymatch goal with
  | |- wp _ _ ?Q =>
      let post := fresh "post" in
      set (post := Q);
      repeat first [ftac | wp_step | wp_branch | progress (cbn [app]; cbv iota)];
      subst post; cbv beta; cbn [app]
  end.

(** Expose the flags the [try] statement depends on and split on them. *)
Ltac supervise_setup args :=
  let bw := fresh "bw" in let dj := fresh "dj" in let b := fresh "b" in
  destruct args as [bw ? ? ? ? ? dj ?];
  unfold supervise, run_try, entry, launch_plan, helpers, any_api; st_simpl;
  cbn [builtin_worker composer_api local_worker_api remote_worker_api
       weldr_api dnf_json];
  match goal with |- context [any ?l] => generalize (any l) end;
  intros b; destruct b, bw, dj; st_simpl.

(** ** The three ways out of the blocking wait *)

Section Paths.

Variables (o : Oracle) (args : Namespace) (socks : list socket).

Variables (E : gmap string string) (F : list nat) (K : list socket).

Hypothesis Hquiet : ∀ p, p ≠ at_wait Composer → fault o p = None.

Ltac path_fault Hc :=
  idtac;
  lazymatch goal with
  | |- wp (syscall _ (at_wait Composer) _) _ _ =>
      first [ apply (wp_syscall_ok _ _ _ _ _ Hc)
            | apply (wp_syscall_raise _ _ _ _ _ _ Hc) ]; st_simpl
  | |- wp (syscall _ ?p _) _ _ =>
      apply (wp_syscall_ok _ p); [by apply Hquiet|]; st_simpl
  end.

(** The composer exits on its own (or there is no composer at all). *)
Lemma supervise_normal :
  fault o (at_wait Composer) = None →
  result (supervise o args socks (entry E F K))
    = Ok (if any_api args then exit_status o Composer else 0%Z) ∧
  ptrace (events (supervise o args socks (entry E F K)))
    = map Spawned (launch_plan args) ++
      (if any_api args then [Reaped Composer (exit_status o Composer)] else []) ++
      flat_map (λ h, (if any_api args then [Signalled h SIGTERM] else []) ++
                     [Reaped h (exit_status o h)]) (helpers args).
Proof.
  intros Hc.
  change (wp (supervise o args socks) (entry E F K) (λ r _ e,
    r = Ok (if any_api args then exit_status o Composer else 0%Z) ∧
    ptrace e = map Spawned (launch_plan args) ++
      (if any_api args then [Reaped Composer (exit_status o Composer)] else []) ++
      flat_map (λ h, (if any_api args then [Signalled h SIGTERM] else []) ++
                     [Reaped h (exit_status o h)]) (helpers args))).
  supervise_setup args; wp_explore_with ltac:(path_fault Hc); by split.
Qed.

(** The supervisor is interrupted while it waits for the composer. *)
Lemma supervise_interrupted :
  fault o (at_wait Composer) = Some KeyboardInterrupt →
  any_api args = true →
  result (supervise o args socks (entry E F K)) = Ok (exit_status o Composer) ∧
  ptrace (events (supervise o args socks (entry E F K)))
    = map Spawned (launch_plan args) ++
      flat_map (λ h, [Signalled h SIGTERM; Reaped h (exit_status o h)])
               (helpers args) ++
      [Signalled Composer SIGTERM; Reaped Composer (exit_status o Composer)].
Proof.
  intros Hc.
  change (any_api args = true →
    wp (supervise o args socks) (entry E F K) (λ r _ e,
    r = Ok (exit_status o Composer) ∧
    ptrace e = map Spawned (launch_plan args) ++
      flat_map (λ h, [Signalled h SIGTERM; Reaped h (exit_status o h)])
               (helpers args) ++
      [Signalled Composer SIGTERM; Reaped Composer (exit_status o Composer)])).
  supervise_setup args; intros Hany; try discriminate Hany;
    wp_explore_with ltac:(path_fault Hc); by split.
Qed.

(** The wait for the composer fails with something else than an interrupt. *)
Lemma supervise_failed e :
  fault o (at_wait Composer) = Some e →
  e ≠ KeyboardInterrupt →
  (∀ c, fault o (at_kill c) = None) →
  any_api args = true →
  result (supervise o args socks (entry E F K)) = Raise e ∧
  ptrace (events (supervise o args socks (entry E F K)))
    = map Spawned (launch_plan args) ++
      map (λ c, Signalled c SIGKILL) (launch_plan args).
Proof.
  intros Hc Hne Hk.
  change (any_api args = true →
    wp (supervise o args socks) (entry E F K) (λ r _ e',
    r = Raise e ∧
    ptrace e' = map Spawned (launch_plan args) ++
      map (λ c, Signalled c SIGKILL) (launch_plan args))).
  supervise_setup args; intros Hany; try discriminate Hany;
    wp_explore_with ltac:(path_fault Hc); by split.
Qed.

End Paths.

(** Membership in explicit lists. *)
Ltac in_list :=
  solve [repeat first [apply list_elem_of_here | apply list_elem_of_further]].

Ltac not_in_list H :=
  repeat (apply elem_of_cons in H as [H|H]; [try discriminate H|]);
  try (by apply elem_of_nil in H).

Ltac helper_cases :=
  let h := fresh "h" in let Hh := fresh "Hh" in let Hin := fresh "Hin" in
  intros h Hh Hin; destruct h; try done; try (exfalso; by not_in_list Hin);
  (split; [reflexivity|split; [|in_list]]);
  let H := fresh "H" in intros H; by not_in_list H.

Lemma run_boot_ptrace o args env0 :
  sockets_ok o →
  ∃ socks E F K,
    result (run o args (boot env0)) = result (supervise o args socks (entry E F K)) ∧
    ptrace (events (run o args (boot env0)))
      = ptrace (events (supervise o args socks (entry E F K))).
Proof.
  intros Hok. destruct (run_boot o args env0 Hok) as (socks & E & F & K & e0 & Hr & He & H0).
  exists socks, E, F, K. split; [done|]. by rewrite He, ptrace_app, H0.
Qed.

Lemma quiet_sockets_ok o :
  (∀ p, p ≠ at_wait Composer → fault o p = None) → sockets_ok o.
Proof. intros H k. by rewrite !H. Qed.


Lemma oracle_quiet_faults p : fault oracle_quiet p = None.
Proof. done. Qed.

Lemma oracle_interrupt_faults p :
  p ≠ at_wait Composer → fault oracle_interrupt p = None.
Proof. intros Hp. destruct p as [| | | |[]| | | |]; done. Qed.


Lemma run_try_split o args socks s :
  run_try o args socks s = (run_spawn o args socks ≫= λ _, run_cascade o) s.
Proof.
  unfold run_try, run_spawn. fold (run_cascade o).
  unfold mbind, M_bind, bind.
  destruct (when (builtin_worker args) _ s) as [[[]|x] s1 e1]; [|done].
  destruct (when (dnf_json args) _ s1) as [[[]|x] s2 e2]; [|done].
  destruct (when (any _) _ s2) as [[[]|x] s3 e3]; [|done].
  destruct (run_cascade o s3) as [r s4 e4]. by rewrite !app_assoc.
Qed.

Lemma supervise_split o args socks s :
  supervise o args socks s =
    try_except (run_spawn o args socks ≫= λ _, run_cascade o) (run_except o) s.
Proof. unfold supervise, try_except. by rewrite run_try_split. Qed.

Lemma R_noforks_refl s : R_noforks s s [].
Proof. done. Qed.

Lemma R_noforks_trans s1 s2 s3 e1 e2 :
  R_noforks s1 s2 e1 → R_noforks s2 s3 e2 → R_noforks s1 s3 (e1 ++ e2).
Proof. unfold R_noforks, forks. intros H1 H2. by rewrite omap_app, H1, H2. Qed.

Ltac noforks_auto :=
  respects_auto R_noforks_refl R_noforks_trans
    ltac:(by (let s := fresh "s" in intros s; repeat case_match)).

Lemma run_cascade_noforks o : respects R_noforks (run_cascade o).
Proof. unfold run_cascade, terminate, send_signal, wait. noforks_auto. Qed.

Lemma run_except_noforks o e : respects R_noforks (run_except o e).
Proof. unfold_supervise. noforks_auto. Qed.

Section Startup.

Variables (o : Oracle) (args : Namespace) (socks : list socket).

Variables (E : gmap string string) (F : list nat) (K : list socket).

Hypothesis Hsock : sockets_ok o.

Hypothesis Hpopen : ∀ c, fault o (at_Popen c) = None.

Ltac startup_fault :=
  idtac;
  lazymatch goal with
  | |- wp (syscall _ (at_Popen ?c) _) _ _ =>
      apply (wp_syscall_ok _ _ _ _ _ (Hpopen c)); st_simpl
  | |- wp (syscall _ (at_socket ?k) _) _ _ =>
      apply (wp_syscall_ok _ _ _ _ _ (proj1 (Hsock k))); st_simpl
  | |- wp (syscall _ (at_bind ?k) _) _ _ =>
      apply (wp_syscall_ok _ _ _ _ _ (proj1 (proj2 (Hsock k)))); st_simpl
  | |- wp (syscall _ (at_listen ?k) _) _ _ =>
      apply (wp_syscall_ok _ _ _ _ _ (proj2 (proj2 (Hsock k)))); st_simpl
  | |- wp (run_cascade ?o') _ _ =>
      let He := fresh "He" in
      apply (respects_wp R_noforks _ _ _ (run_cascade_noforks o'));
      intros [?|?] ? ? He; st_simpl
  | |- wp (run_except ?o' ?x) _ _ =>
      let He := fresh "He" in
      apply (respects_wp R_noforks _ _ _ (run_except_noforks o' x));
      intros ? ? ? He; st_simpl
  end.

(** When start-up meets no fault, exactly the planned children are started,
    in the planned order, whatever happens afterwards. *)
Lemma supervise_forks :
  forks (events (supervise o args socks (entry E F K))) = launch_plan args.
Proof.
  rewrite supervise_split.
  change (wp (try_except (run_spawn o args socks ≫= λ _, run_cascade o)
                         (run_except o)) (entry E F K)
             (λ _ _ e, forks e = launch_plan args)).
  destruct args as [bw ? ? ? ? ? dj ?].
  unfold run_spawn, entry, launch_plan, helpers, any_api; st_simpl.
  cbn [builtin_worker composer_api local_worker_api remote_worker_api
       weldr_api dnf_json].
  match goal with |- context [any ?l] => generalize (any l) end.
  intros b; destruct b, bw, dj; st_simpl.
  all: wp_explore_with startup_fault.
  all: unfold R_noforks, forks in *; cbn [omap list_omap];
    rewrite ?omap_app;
    repeat match goal with H : omap _ _ = [] |- _ => rewrite H; clear H end;
    done.
Qed.

End Startup.

Lemma any_true_iff (a b c d : bool) :
  any [a; b; c; d] = true ↔ a = true ∨ b = true ∨ c = true ∨ d = true.
Proof. destruct a, b, c, d; cbn; intuition discriminate. Qed.

(** C7.  When start-up meets no fault, the children started are, in this
    order: the local worker if enabled, dnf-json if enabled, and last the
    composer, which is started if and only if at least one of the weldr-API,
    composer-API, local-worker-API and remote-worker-API is enabled. *)
Theorem C7_launch_plan o args env0 :
  sockets_ok o →
  (∀ c, fault o (at_Popen c) = None) →
  forks (events (run o args (boot env0)))
    = (if builtin_worker args then [Worker] else []) ++
      (if dnf_json args then [DnfJson] else []) ++
      (if any [weldr_api args; composer_api args; local_worker_api args;
               remote_worker_api args] then [Composer] else []) ∧
  (Composer ∈ forks (events (run o args (boot env0))) ↔
     weldr_api args = true ∨ composer_api args = true ∨
     local_worker_api args = true ∨ remote_worker_api args = true).
Proof.
  intros Hsock Hpopen.
  assert (forks (events (run o args (boot env0))) = launch_plan args) as Hplan.
  { destruct (run_boot o args env0 Hsock) as (socks & E & F & K & e0 & _ & He & H0).
    rewrite He, forks_ptrace, ptrace_app, H0, app_nil_l, <- forks_ptrace.
    by apply supervise_forks. }
  rewrite Hplan. unfold launch_plan, helpers, any_api. split.
  - by rewrite app_assoc.
  - rewrite <- any_true_iff.
    destruct (builtin_worker args), (dnf_json args), (any _); cbn;
      split; intros H; try done; try in_list; exfalso; by not_in_list H.
Qed.

Lemma C7_launch_plan_witness :
  forks (events (run oracle_quiet args_full (boot ∅))) = [Worker; DnfJson; Composer] ∧
  forks (events (run oracle_quiet args_dnf_only (boot ∅))) = [DnfJson].
Proof.
  split.
  - exact (proj1 (C7_launch_plan oracle_quiet args_full ∅
                    (λ k, conj eq_refl (conj eq_refl eq_refl)) (λ c, eq_refl))).
  - exact (proj1 (C7_launch_plan oracle_quiet args_dnf_only ∅
                    (λ k, conj eq_refl (conj eq_refl eq_refl)) (λ c, eq_refl))).
Defined.

(** ** Runs without a composer *)

Lemma any_false_iff (a b c d : bool) :
  any [a; b; c; d] = false ↔ a = false ∧ b = false ∧ c = false ∧ d = false.
Proof. destruct a, b, c, d; cbn; intuition discriminate. Qed.

Lemma prepare_sockets_none o args s :
  any_api args = false → ∃ socks, result (_prepare_sockets o args s) = Ok socks.
Proof.
  unfold any_api. intros (Hw & Hc & Hl & Hr)%any_false_iff.
  unfold _prepare_sockets. rewrite Hw, Hc, Hl, Hr. by eexists.
Qed.

Ltac spawned_cases H :=
  repeat (apply elem_of_cons in H as [H|H];
          [try discriminate H; try (injection H as ->)|]);
  try (by apply elem_of_nil in H).

Lemma supervise_no_primary o args socks E F K :
  any_api args = false →
  Forall (λ p, pchild p ≠ Composer)
         (ptrace (events (supervise o args socks (entry E F K)))) ∧
  (∀ z, result (supervise o args socks (entry E F K)) = Ok z →
     z = 0%Z ∧
     ∀ h, Spawned h ∈ ptrace (events (supervise o args socks (entry E F K))) →
          Reaped h (exit_status o h)
            ∈ ptrace (events (supervise o args socks (entry E F K)))).
Proof.
  change (any_api args = false →
    wp (supervise o args socks) (entry E F K) (λ r _ e,
      Forall (λ p, pchild p ≠ Composer) (ptrace e) ∧
      (∀ z, r = Ok z → z = 0%Z ∧
         ∀ h, Spawned h ∈ ptrace e → Reaped h (exit_status o h) ∈ ptrace e))).
  supervise_setup args; intros Hany; try discriminate Hany; wp_explore.
  all: split; [by repeat constructor|].
  all: intros z Hz; try discriminate Hz.
  all: injection Hz as <-; split; [done|].
  all: intros h Hin; cbn in Hin; spawned_cases Hin; cbn; in_list.
Qed.

(** C8.  When none of the weldr-API, composer-API, local-worker-API and
    remote-worker-API is enabled, no composer is spawned, waited for or
    signalled, whatever faults the run meets.  Whenever the run returns, it
    returns 0 and every helper it spawned has been waited on; with no fault,
    it does return, having sent no signal: the helpers' own exit codes play
    no part. *)
Theorem C8_no_primary o args env0 :
  any [weldr_api args; composer_api args; local_worker_api args;
       remote_worker_api args] = false →
  Forall (λ p, pchild p ≠ Composer) (ptrace (events (run o args (boot env0)))) ∧
  (∀ z, result (run o args (boot env0)) = Ok z →
     z = 0%Z ∧
     ∀ h, Spawned h ∈ ptrace (events (run o args (boot env0))) →
          Reaped h (exit_status o h) ∈ ptrace (events (run o args (boot env0)))) ∧
  ((∀ p, fault o p = None) →
     result (run o args (boot env0)) = Ok 0%Z ∧
     ptrace (events (run o args (boot env0)))
       = map Spawned (helpers args) ++
         map (λ h, Reaped h (exit_status o h)) (helpers args)).
Proof.
  intros Hany. fold (any_api args) in Hany.
  destruct (run_cases o args (boot env0))
    as [(x & Hx & _)|(socks & E & F & K & e0 & _ & Hr & He & H0)].
  { destruct (prepare_sockets_none o args (run_init (boot env0)) Hany) as [? Hs].
    congruence. }
  rewrite Hr, He, ptrace_app, H0, app_nil_l.
  destruct (supervise_no_primary o args socks E F K Hany) as [H1 H2].
  split; [done|]. split; [done|].
  intros Hq.
  destruct (supervise_normal o args socks E F K (λ p _, Hq p) (Hq _)) as [-> ->].
  unfold launch_plan, helpers. rewrite Hany.
  by destruct (builtin_worker args), (dnf_json args).
Qed.

Lemma C8_no_primary_witness :
  result (run oracle_helper_fails args_dnf_only (boot ∅)) = Ok 0%Z ∧
  ptrace (events (run oracle_helper_fails args_dnf_only (boot ∅)))
    = [Spawned DnfJson; Reaped DnfJson 7%Z].
Proof.
  exact (proj2 (proj2 (C8_no_primary oracle_helper_fails args_dnf_only ∅ eq_refl))
           (λ p, eq_refl)).
Defined.

(** ** Internal failures *)

Section Failure.

Variables (o : Oracle).

Hypothesis Hkill : ∀ c, fault o (at_kill c) = None.

Ltac kill_fault :=
  idtac;
  lazymatch goal with
  | |- wp (syscall _ (at_kill ?c) _) _ _ =>
      apply (wp_syscall_ok _ _ _ _ _ (Hkill c)); st_simpl
  end.

Lemma run_try_failure args socks E F K :
  wp (run_try o args socks) (entry E F K) (λ r s1 e1,
    ∀ e, r = Raise e → e ≠ KeyboardInterrupt → failure_handled o e s1 e1).
Proof.
  supervise_setup args; wp_explore.
  all: intros e' He' Hne; try discriminate He'; injection He' as <-.
  all: unfold failure_handled; rewrite (run_except_failed o _ Hne).
  all: match goal with
       | |- result (run_failed o ?x ?s) = _ ∧ ptrace (events _) = ?k ∧ ?Q =>
           change (wp (run_failed o x) s (λ r _ e2,
                     r = Raise x ∧ ptrace e2 = k ∧ Q))
       end.
  all: wp_explore_with kill_fault.
  all: by repeat split.
Qed.

End Failure.

Lemma any_reaped_false t :
  any_reaped t = false → ∀ c z, Reaped c z ∉ t.
Proof.
  intros H c z Hin. assert (any_reaped t = true) as Ht; [|congruence].
  apply existsb_exists. exists (Reaped c z). split; [|done].
  by apply list_elem_of_In.
Qed.

Lemma any_signalled_false t :
  any_signalled t = false → ∀ c g, Signalled c g ∉ t.
Proof.
  intros H c g Hin. assert (any_signalled t = true) as Ht; [|congruence].
  apply existsb_exists. exists (Signalled c g). split; [|done].
  by apply list_elem_of_In.
Qed.

Lemma spawned_true t c : Spawned c ∈ t → spawned t c = true.
Proof.
  intros Hin. apply existsb_exists. exists (Spawned c).
  split; [by apply list_elem_of_In|]. by apply bool_decide_eq_true.
Qed.

Lemma reaped_false t c : any_reaped t = false → reaped t c = false.
Proof.
  intros H. destruct (reaped t c) eqn:Hr; [|done].
  apply existsb_exists in Hr as ([] & Hin & Hp); try discriminate.
  apply list_elem_of_In in Hin. by apply any_reaped_false in Hin.
Qed.

Lemma elem_of_kills t p :
  p ∈ kills t ↔ ∃ c, p = Signalled c SIGKILL ∧ live t c = true.
Proof.
  unfold kills. rewrite list_elem_of_fmap. split.
  - intros (c & -> & Hc). apply list_elem_of_filter in Hc as [Hl _]. eauto.
  - intros (c & -> & Hl). exists c. split; [done|].
    apply list_elem_of_filter. split; [done|]. destruct c; in_list.
Qed.



(** ** The order of spawning and of termination *)

Section SpawnOrder.

Variables (o : Oracle) (args : Namespace) (socks : list socket).

Variables (E : gmap string string) (F : list nat) (K : list socket).

Ltac quiet_rest :=
  idtac;
  lazymatch goal with
  | |- wp (run_cascade ?o') _ _ =>
      let He := fresh "He" in
      apply (respects_wp R_noforks _ _ _ (run_cascade_noforks o'));
      intros [?|?] ? ? He; st_simpl
  | |- wp (run_except ?o' ?x) _ _ =>
      let He := fresh "He" in
      apply (respects_wp R_noforks _ _ _ (run_except_noforks o' x));
      intros ? ? ? He; st_simpl
  end.

(** Whatever the faults, the children are started in the order of the launch
    plan; a fault can only cut the sequence short. *)
Lemma supervise_forks_prefix :
  ∃ rest, launch_plan args
          = forks (events (supervise o args socks (entry E F K))) ++ rest.
Proof.
  rewrite supervise_split.
  change (wp (try_except (run_spawn o args socks ≫= λ _, run_cascade o)
                         (run_except o)) (entry E F K)
             (λ _ _ e, ∃ rest, launch_plan args = forks e ++ rest)).
  destruct args as [bw ? ? ? ? ? dj ?].
  unfold run_spawn, entry, launch_plan, helpers, any_api; st_simpl.
  cbn [builtin_worker composer_api local_worker_api remote_worker_api
       weldr_api dnf_json].
  match goal with |- context [any ?l] => generalize (any l) end.
  intros b; destruct b, bw, dj; st_simpl.
  all: wp_explore_with quiet_rest.
  all: unfold R_noforks, forks in *; cbn [omap list_omap];
    rewrite ?omap_app;
    repeat match goal with H : omap _ _ = [] |- _ => rewrite H; clear H end;
    cbn [app]; eexists; reflexivity.
Qed.

End SpawnOrder.

Lemma run_forks_prefix o args s :
  ∃ rest, launch_plan args = forks (events (run o args s)) ++ rest.
Proof.
  destruct (run_cases o args s)
    as [(x & _ & _ & Hp)|(socks & E & F & K & e0 & _ & _ & He & H0)].
  - rewrite forks_ptrace, Hp. by eexists.
  - rewrite He, forks_ptrace, ptrace_app, H0, app_nil_l, <- forks_ptrace.
    apply supervise_forks_prefix.
Qed.




(** * Beyond the claims

    Further properties of the entrypoint, read off the source. *)

(** ** The command line *)

Lemma parse_args_snoc argv opt :
  _parse_args (argv ++ [opt]) = store (_parse_args argv) opt.
Proof. unfold _parse_args. by rewrite fold_left_app. Qed.

Lemma last_omap_snoc {A B} (f : A → option B) (l : list A) (x : A) :
  last (omap f (l ++ [x]))
    = match f x with Some b => Some b | None => last (omap f l) end.
Proof.
  rewrite omap_app. cbn. destruct (f x) as [b|]; [|by rewrite app_nil_r].
  apply last_snoc.
Qed.

(** X1. On the command line the last word counts: a switch is on exactly
    when the last option naming it switches it on, a port is the last one
    given, and without any the defaults hold: every switch off, the composer
    API on port 443, dnf-json on port 0. No option reaches [builtin_worker]. *)
Theorem parse_args_last_wins (argv : list CliOption) :
  (∀ w, switch_value w (_parse_args argv)
          = default false (last (omap (says w) argv))) ∧
  composer_api_port (_parse_args argv)
    = default 443%Z (last (omap says_composer_api_port argv)) ∧
  dnf_json_port (_parse_args argv)
    = default 0%Z (last (omap says_dnf_json_port argv)) ∧
  builtin_worker (_parse_args argv) = false.
Proof.
  induction argv as [|opt argv IH] using rev_ind.
  - split; [by intros []|done].
  - destruct IH as (Hw & Hc & Hd & Hb).
    rewrite parse_args_snoc, !last_omap_snoc.
    split; [|split; [|split]].
    + intros w. rewrite last_omap_snoc. specialize (Hw w).
      destruct w, opt; cbn in *; done.
    + destruct opt; cbn in *; done.
    + destruct opt; cbn in *; done.
    + destruct opt; cbn in *; done.
Qed.

Lemma parse_args_builtin_worker argv : builtin_worker (_parse_args argv) = false.
Proof.
  induction argv as [|opt argv IH] using rev_ind; [done|].
  rewrite parse_args_snoc. by destruct opt.
Qed.

Lemma forks_main o args s :
  forks (events (main o args s)) = forks (events (run o args (set_exitstack [] s))).
Proof.
  rewrite main_unfold.
  destruct (run o args (set_exitstack [] s)) as [r s1 e1].
  pose proof (close_all_spec (_exitstack s1) (set_exitstack [] s1)) as (_ & He & _).
  destruct (close_all _ _) as [r2 s2 e2]. cbn [events] in *. subst e2.
  unfold forks. rewrite omap_app. fold (forks e1).
  fold (forks (map (λ k, EClose (fileno k)) (_exitstack s1))).
  by rewrite forks_map_EClose, app_nil_r.
Qed.

(** X2. The built-in worker cannot be asked for: no option of the command
    line reaches [builtin_worker], which [set_defaults] leaves false. So
    whatever the command line and whatever happens during the run, the
    program never starts the worker. *)
Theorem worker_never_started o argv s :
  Forall (λ c, c ≠ Worker) (forks (events (entrypoint o argv s))).
Proof.
  unfold entrypoint. rewrite forks_main.
  destruct (run_forks_prefix o (_parse_args argv) (set_exitstack [] s))
    as [rest Hplan].
  apply Forall_forall. intros c Hin ->.
  assert (Worker ∈ launch_plan (_parse_args argv)) as Hw.
  { rewrite Hplan. apply elem_of_app. by left. }
  unfold launch_plan, helpers in Hw.
  rewrite parse_args_builtin_worker in Hw.
  destruct (dnf_json _), (any_api _); cbn in Hw; by not_in_list Hw.
Qed.

Lemma parse_args_nothing_enabled argv :
  Forall (λ opt, ¬ enabling opt) argv →
  ∀ w, switch_value w (_parse_args argv) = false.
Proof.
  induction argv as [|opt argv IH] using rev_ind; intros Hall w; [by destruct w|].
  apply Forall_app in Hall as [Hall Hopt]. rewrite Forall_singleton in Hopt.
  specialize (IH Hall). rewrite parse_args_snoc.
  pose proof (IH w) as Hw.
  destruct w, opt; cbn in *; try done; exfalso; apply Hopt.
  - by exists SwComposerApi.
  - by exists SwLocalWorkerApi.
  - by exists SwRemoteWorkerApi.
  - by exists SwWeldrApi.
  - by exists SwDnfJson.
Qed.

Lemma main_nothing_enabled o args s :
  builtin_worker args = false → composer_api args = false →
  local_worker_api args = false → remote_worker_api args = false →
  weldr_api args = false → dnf_json args = false →
  result (main o args s) = Ok 0%Z ∧
  events (main o args s) = [] ∧
  environ (final (main o args s))
    = <["LISTEN_FDNAMES" := EmptyString]> (<["LISTEN_FDS" := "0"]> (environ s)) ∧
  fdtable (final (main o args s)) = fdtable s.
Proof.
  destruct args as [bw ca cap lw rw wa dj djp]. cbn. intros -> -> -> -> -> ->.
  destruct s as [E F K pc pw pd r0]. cbn.
  by repeat split.
Qed.

(** X3. A command line that switches nothing on makes the program a no-op:
    it exits with status 0 having opened no socket and started no process;
    all it leaves behind is [LISTEN_FDS=0] and an empty [LISTEN_FDNAMES] in
    its own environment. *)
Theorem nothing_enabled_nothing_done o argv s :
  Forall (λ opt, ¬ enabling opt) argv →
  result (entrypoint o argv s) = Ok 0%Z ∧
  events (entrypoint o argv s) = [] ∧
  environ (final (entrypoint o argv s))
    = <["LISTEN_FDNAMES" := EmptyString]> (<["LISTEN_FDS" := "0"]> (environ s)) ∧
  fdtable (final (entrypoint o argv s)) = fdtable s.
Proof.
  intros Hall. pose proof (parse_args_nothing_enabled argv Hall) as Hoff.
  apply main_nothing_enabled.
  - apply parse_args_builtin_worker.
  - apply (Hoff SwComposerApi).
  - apply (Hoff SwLocalWorkerApi).
  - apply (Hoff SwRemoteWorkerApi).
  - apply (Hoff SwWeldrApi).
  - apply (Hoff SwDnfJson).
Qed.

Lemma nothing_enabled_nothing_done_witness :
  result (entrypoint oracle_quiet [opt_no_weldr_api; opt_composer_api_port 8080]
            (boot ∅)) = Ok 0%Z ∧
  events (entrypoint oracle_quiet [opt_no_weldr_api; opt_composer_api_port 8080]
            (boot ∅)) = [].
Proof.
  pose proof (nothing_enabled_nothing_done oracle_quiet
                [opt_no_weldr_api; opt_composer_api_port 8080] (boot ∅)) as H.
  destruct H as (H1 & H2 & _).
  - repeat constructor; intros [[] Hw]; discriminate Hw.
  - by split.
Defined.

(** ** The wiring of the activation sockets *)

Lemma prepare_sockets_wiring o args s :
  prepare_sockets_wired args s (result (_prepare_sockets o args s))
    (final (_prepare_sockets o args s)) (events (_prepare_sockets o args s)).
Proof.
  change (wp (_prepare_sockets o args) s (prepare_sockets_wired args s)).
  destruct args as [bw ca cap lw rw wa dj djp], s as [E F K pc pw pd r0].
  unfold prepare_sockets_wired, activation_sockets.
  destruct wa, ca, lw, rw; st_simpl; wp_explore.
  all: try reflexivity.
  all: repeat match goal with
       | H : (_ =? _) = true |- _ => apply Nat.eqb_eq in H
       end.
  all: repeat match goal with H : lowest_free _ = _ |- _ => rewrite H end.
  all: cbn [length app map fst snd seq zip zip_with fileno fdtable].
  all: (split; [reflexivity|split; [reflexivity|split;
         [by rewrite <- ?app_assoc, ?app_nil_r|split; [reflexivity|]]]]).
  all: repeat constructor.
  all: unfold listening; cbn; eauto.
Qed.

(** X4. The names, the descriptors and the addresses line up: when socket
    preparation succeeds, the i-th name of [LISTEN_FDNAMES] is the name of
    the i-th enabled role, descriptor 3+i is the i-th socket returned, and
    the address bound on it is that role's address. *)
Theorem activation_wiring o args s socks :
  result (_prepare_sockets o args s) = Ok socks →
  environ (final (_prepare_sockets o args s)) !! "LISTEN_FDNAMES"
    = Some (join ":" (map fst (activation_sockets args))) ∧
  map fileno socks = seq 3 (length (activation_sockets args)) ∧
  bound (events (_prepare_sockets o args s))
    = zip (map fileno socks) (map snd (activation_sockets args)).
Proof.
  intros Hr. pose proof (prepare_sockets_wiring o args s) as Hw.
  destruct (prepare_sockets_post o args s) as [Hpost _].
  destruct (Hpost socks Hr) as (_ & _ & Hfd & _).
  rewrite Hr in Hw. destruct Hw as (Henv & _ & _ & Hb & _).
  assert (length (enabled_socket_names args) = length (activation_sockets args))
    as Hlen.
  { unfold enabled_socket_names, activation_sockets.
    by destruct (weldr_api args), (composer_api args), (local_worker_api args),
      (remote_worker_api args). }
  rewrite Hlen in Hfd. rewrite Henv, Hb, Hfd. split; [|done].
  by rewrite lookup_insert_eq.
Qed.

Lemma activation_wiring_witness :
  bound (events (_prepare_sockets oracle_quiet args_full (boot ∅)))
    = [(3, AddrInet6 "::" 443); (4, AddrUnix "/run/osbuild-composer/job.socket")].
Proof.
  exact (proj2 (proj2 (activation_wiring oracle_quiet args_full (boot ∅)
                         [{| fileno := 3; sock_family := AF_INET6 |};
                          {| fileno := 4; sock_family := AF_UNIX |}] eq_refl))).
Defined.

(** X5. Every socket that socket preparation returns is listening: it has
    been created, bound and put into the listening state, in this order, and
    a network socket has been made dual-stack with address reuse before it
    was bound. *)
Theorem activation_sockets_listening o args s socks :
  result (_prepare_sockets o args s) = Ok socks →
  Forall (λ sock, listening sock (events (_prepare_sockets o args s))) socks.
Proof.
  intros Hr. pose proof (prepare_sockets_wiring o args s) as Hw.
  rewrite Hr in Hw. by destruct Hw as (_ & _ & _ & _ & Hl).
Qed.

Lemma activation_sockets_listening_witness :
  Forall (λ sock, listening sock
                    (events (_prepare_sockets oracle_quiet args_full (boot ∅))))
         [{| fileno := 3; sock_family := AF_INET6 |};
          {| fileno := 4; sock_family := AF_UNIX |}].
Proof.
  exact (activation_sockets_listening oracle_quiet args_full (boot ∅) _ eq_refl).
Defined.

(** X6. Socket preparation announces the sockets only once all of them are
    listening: when it succeeds it has assigned [LISTEN_FDS] and
    [LISTEN_FDNAMES] and nothing else in [os.environ]; when it fails,
    [os.environ] is as it was. *)
Theorem announce_after_listen o args s :
  match result (_prepare_sockets o args s) with
  | Ok socks =>
      environ (final (_prepare_sockets o args s))
        = <["LISTEN_FDNAMES" := join ":" (enabled_socket_names args)]>
            (<["LISTEN_FDS" := str (length socks)]> (environ s))
  | Raise _ => environ (final (_prepare_sockets o args s)) = environ s
  end.
Proof.
  pose proof (prepare_sockets_wiring o args s) as Hw.
  destruct (result (_prepare_sockets o args s)) as [socks|x]; [|done].
  destruct Hw as (-> & _). do 2 f_equal.
  unfold enabled_socket_names, activation_sockets.
  by destruct (weldr_api args), (composer_api args), (local_worker_api args),
    (remote_worker_api args).
Qed.

(** ** The socket of dnf-json *)

(** X7. When [_spawn_dnf_json] returns, dnf-json has been started on one
    descriptor, fresh in the supervisor, which is a listening socket: an
    IPv6 dual-stack socket on the port given by [--dnf-json-port], or, when
    that port is 0 (the default), the unix socket
    [/run/osbuild-dnf-json/api.sock]. *)
Theorem dnf_json_socket o args s p :
  result (_spawn_dnf_json o args s) = Ok p →
  ∃ fd img,
    (fd ∉ fdtable s) ∧
    execs (events (_spawn_dnf_json o args s)) = [(DnfJson, img)] ∧
    im_pass_fds img = [fd] ∧
    bound (events (_spawn_dnf_json o args s)) = [(fd, snd (dnf_json_endpoint args))] ∧
    listening {| fileno := fd; sock_family := fst (dnf_json_endpoint args) |}
              (events (_spawn_dnf_json o args s)).
Proof.
  change (wp (_spawn_dnf_json o args) s (λ r _ e,
    r = Ok p →
    ∃ fd img,
      (fd ∉ fdtable s) ∧ execs e = [(DnfJson, img)] ∧ im_pass_fds img = [fd] ∧
      bound e = [(fd, snd (dnf_json_endpoint args))] ∧
      listening {| fileno := fd; sock_family := fst (dnf_json_endpoint args) |} e)).
  destruct args as [bw ca cap lw rw wa dj djp], s as [E F K pc pw pd r0].
  unfold dnf_json_endpoint; st_simpl.
  wp_explore.
  all: intros Hp; try discriminate Hp.
  all: exists (lowest_free F); eexists.
  all: split; [apply lowest_free_fresh|].
  all: cbn [fst snd].
  all: repeat split.
  all: unfold listening, history; cbn; rewrite !Nat.eqb_refl; eauto.
Qed.

Lemma dnf_json_socket_witness :
  ∃ fd img,
    (fd ∉ [0; 1; 2]) ∧
    execs (events (_spawn_dnf_json oracle_quiet args_dnf_port (boot ∅)))
      = [(DnfJson, img)] ∧
    im_pass_fds img = [fd] ∧
    bound (events (_spawn_dnf_json oracle_quiet args_dnf_port (boot ∅)))
      = [(fd, AddrInet6 "::" 8080)] ∧
    listening {| fileno := fd; sock_family := AF_INET6 |}
              (events (_spawn_dnf_json oracle_quiet args_dnf_port (boot ∅))).
Proof.
  exact (dnf_json_socket oracle_quiet args_dnf_port (boot ∅)
           {| pid := 101; returncode := None |} eq_refl).
Defined.

(** ** The program ends by closing its sockets *)

(** X8. [run] closes nothing; when it is over, be it by a return or by an
    exception, and so after the last dealing with any child, the program
    closes the sockets it created, the dnf-json socket included, in the
    reverse order of their creation. *)
Theorem main_closes_last o args s :
  closed (events (run o args (set_exitstack [] s))) = [] ∧
  events (main o args s)
    = events (run o args (set_exitstack [] s)) ++
      map EClose (reverse (opened (events (run o args (set_exitstack [] s))))).
Proof.
  rewrite main_unfold.
  pose proof (run_R_sock o args (set_exitstack [] s)) as (Hc & _ & Hk & _).
  destruct (run o args (set_exitstack [] s)) as [r s1 e1].
  cbn [final events _exitstack set_exitstack map] in Hc, Hk.
  rewrite app_nil_r in Hk.
  pose proof (close_all_spec (_exitstack s1) (set_exitstack [] s1)) as (_ & He & _).
  destruct (close_all (_exitstack s1) (set_exitstack [] s1)) as [r2 s2 e2].
  cbn [events] in *. subst e2. split; [done|].
  by rewrite <- Hk, <- list_fmap_compose.
Qed.

(** ** What the entrypoint leaves alone in the environment *)

Section Frame.

Variable k : string.

Hypothesis Hk : k ∉ assigned_variables.

Lemma frame_fds : "LISTEN_FDS" ≠ k.
Proof. intros <-. apply Hk. unfold assigned_variables. in_list. Qed.

Lemma frame_fdnames : "LISTEN_FDNAMES" ≠ k.
Proof. intros <-. apply Hk. unfold assigned_variables. in_list. Qed.

Lemma frame_cache : "CACHE_DIRECTORY" ≠ k.
Proof. intros <-. apply Hk. unfold assigned_variables. in_list. Qed.

Lemma frame_state : "STATE_DIRECTORY" ≠ k.
Proof. intros <-. apply Hk. unfold assigned_variables. in_list. Qed.

Lemma R_frame_refl s : R_frame k s s [].
Proof. by split. Qed.

Lemma R_frame_trans s1 s2 s3 e1 e2 :
  R_frame k s1 s2 e1 → R_frame k s2 s3 e2 → R_frame k s1 s3 (e1 ++ e2).
Proof.
  intros [H1 F1] [H2 F2]. split; [congruence|].
  apply Forall_app. split; [done|].
  eapply Forall_impl; [exact F2|]. intros [] ?; try done. by rewrite <- H1.
Qed.

Ltac frame_lookup :=
  repeat (rewrite lookup_insert_ne
            by first [exact frame_fds | exact frame_fdnames
                     | exact frame_cache | exact frame_state]).

Lemma spawn_worker_frame o : respects (R_frame k) (_spawn_worker o).
Proof.
  intros s.
  change (wp (_spawn_worker o) s (λ _ s' e, R_frame k s s' e)).
  wp_explore; (split; [done|]); repeat constructor; cbn.
  intros _. by frame_lookup.
Qed.

Lemma spawn_composer_frame o socks :
  respects (R_frame k) (_spawn_composer o socks).
Proof.
  intros s.
  change (wp (_spawn_composer o socks) s (λ _ s' e, R_frame k s s' e)).
  wp_explore; (split; [cbn; by frame_lookup|]); repeat constructor; cbn.
  intros Hown. rewrite lookup_insert_ne; [by frame_lookup|].
  intros <-. apply Hown. in_list.
Qed.

Lemma spawn_dnf_json_frame o args :
  respects (R_frame k) (_spawn_dnf_json o args).
Proof.
  intros s.
  change (wp (_spawn_dnf_json o args) s (λ _ s' e, R_frame k s s' e)).
  destruct s as [E F K pc pw pd r0].
  wp_explore; (split; [done|]); repeat constructor; cbn.
  all: intros Hown; rewrite lookup_insert_ne; [by frame_lookup|].
  all: intros <-; apply Hown; in_list.
Qed.

Lemma run_frame o args : respects (R_frame k) (run o args).
Proof.
  unfold run. unfold_supervise.
  unfold _prepare_sockets, print_stderr, socket_socket, enter_context_closing,
    sock_bind, sock_listen, setsockopt, setenv.
  respects_auto R_frame_refl R_frame_trans
    ltac:(first
      [ apply spawn_worker_frame
      | apply spawn_composer_frame
      | apply spawn_dnf_json_frame
      | match goal with
        | |- respects _ (let '(_, _) := ?x in _) => destruct x
        end
      | by (let s := fresh "s" in
            intros s; repeat case_match; cbn [final events];
            (split; [cbn; by frame_lookup | repeat constructor])) ]).
Qed.

End Frame.

(** X9. The entrypoint assigns four variables of its own environment
    ([LISTEN_FDS], [LISTEN_FDNAMES], [CACHE_DIRECTORY], [STATE_DIRECTORY]);
    the composer is given [LISTEN_PID] and dnf-json [LISTEN_FD] on top.
    Every other variable is left as it was, in the supervisor and in every
    program it starts, whatever happens during the run. In particular the
    worker and dnf-json are given no [LISTEN_PID] of their own: they see the
    one the supervisor was started with, if any. *)
Theorem environment_frame o args s k :
  k ∉ assigned_variables →
  environ (final (run o args s)) !! k = environ s !! k ∧
  ∀ c img, (c, img) ∈ execs (events (run o args s)) →
    k ∉ own_variables c → im_env img !! k = environ s !! k.
Proof.
  intros Hk. destruct (run_frame k Hk o args s) as [He HF].
  split; [done|]. intros c img Hin.
  exact (Forall_execs _ _ c img HF Hin).
Qed.

Lemma environment_frame_witness :
  ∃ img,
    (DnfJson, img) ∈ execs (events (run oracle_quiet args_full
                                      (boot (<["LISTEN_PID" := "1"]> ∅)))) ∧
    im_env img !! "LISTEN_PID" = Some "1".
Proof.
  assert (∃ img, execs (events (run oracle_quiet args_full
                                  (boot (<["LISTEN_PID" := "1"]> ∅)))) !! 1
                 = Some (DnfJson, img)) as [img Himg].
  { eexists. vm_compute. reflexivity. }
  apply list_elem_of_lookup_2 in Himg.
  exists img. split; [exact Himg|].
  refine (proj2 (environment_frame oracle_quiet args_full
                   (boot (<["LISTEN_PID" := "1"]> ∅)) "LISTEN_PID" _)
            DnfJson img Himg _).
  - unfold assigned_variables. intros H. by not_in_list H.
  - cbn. intros H. by not_in_list H.
Defined.

(** ** What each program is started with *)

Lemma R_noexec_refl s : R_noexec s s [].
Proof. done. Qed.

Lemma R_noexec_trans s1 s2 s3 e1 e2 :
  R_noexec s1 s2 e1 → R_noexec s2 s3 e2 → R_noexec s1 s3 (e1 ++ e2).
Proof. unfold R_noexec, execs. intros H1 H2. by rewrite omap_app, H1, H2. Qed.

Ltac noexec_auto :=
  respects_auto R_noexec_refl R_noexec_trans
    ltac:(by (let s := fresh "s" in intros s; repeat case_match)).

Lemma run_cascade_noexec o : respects R_noexec (run_cascade o).
Proof. unfold run_cascade, terminate, send_signal, wait. noexec_auto. Qed.

Lemma run_except_noexec o e : respects R_noexec (run_except o e).
Proof. unfold_supervise. noexec_auto. Qed.

(** The programs of a run are those started in the first half of the [try]
    block. *)
Lemma supervise_execs o args socks s :
  execs (events (supervise o args socks s))
    = execs (events (run_spawn o args socks s)).
Proof.
  rewrite supervise_split. unfold try_except, mbind, M_bind, bind.
  destruct (run_spawn o args socks s) as [[[]|x] s1 e1]; cbn [events].
  - pose proof (run_cascade_noexec o s1) as Hc.
    destruct (run_cascade o s1) as [[z|x] s2 e2]; cbn [final events] in *.
    + unfold R_noexec, execs in *. by rewrite omap_app, Hc, app_nil_r.
    + pose proof (run_except_noexec o x s2) as Hh.
      destruct (run_except o x s2) as [r s3 e3]; cbn [final events] in *.
      unfold R_noexec, execs in *. by rewrite !omap_app, Hc, Hh, !app_nil_r.
  - pose proof (run_except_noexec o x s1) as Hh.
    destruct (run_except o x s1) as [r s3 e3]; cbn [final events] in *.
    unfold R_noexec, execs in *. by rewrite omap_app, Hh, app_nil_r.
Qed.

Lemma run_spawn_images o args socks E F K :
  Forall (program_image E F) (events (run_spawn o args socks (entry E F K))).
Proof.
  change (wp (run_spawn o args socks) (entry E F K)
             (λ _ _ e, Forall (program_image E F) e)).
  destruct args as [bw ca cap lw rw wa dj djp].
  unfold run_spawn, entry; st_simpl.
  cbn [builtin_worker composer_api local_worker_api remote_worker_api
       weldr_api dnf_json].
  match goal with |- context [any ?l] => generalize (any l) end.
  intros b; destruct b, bw, dj; st_simpl.
  all: wp_explore.
  all: repeat constructor; cbn; by env_lookup.
Qed.

(** Socket preparation ends in the state in which the [try] statement is
    entered: no child, [res = 0]. *)
Lemma prepare_sockets_entry o args s :
  final (_prepare_sockets o args (run_init s))
    = entry (environ (final (_prepare_sockets o args (run_init s))))
            (fdtable (final (_prepare_sockets o args (run_init s))))
            (_exitstack (final (_prepare_sockets o args (run_init s)))).
Proof.
  pose proof (prepare_sockets_respects_R_prep o args (run_init s))
    as (Hslot & Hres & _).
  destruct (final (_prepare_sockets o args (run_init s))) as [E F K pc pw pd r0].
  pose proof (Hslot Composer) as Hc. pose proof (Hslot Worker) as Hw.
  pose proof (Hslot DnfJson) as Hd. cbn in Hc, Hw, Hd, Hres. by subst.
Qed.

Lemma run_program_images o args s c img :
  (c, img) ∈ execs (events (run o args s)) →
  program_image (environ (final (_prepare_sockets o args (run_init s))))
                (fdtable (final (_prepare_sockets o args (run_init s))))
                (EExec c img).
Proof.
  rewrite run_unfold.
  pose proof (prepare_sockets_entry o args s) as Hentry.
  pose proof (prepare_sockets_respects_R_prep o args (run_init s))
    as (_ & _ & _ & Hex & _).
  destruct (_prepare_sockets o args (run_init s)) as [[socks|x] s1 e1];
    cbn [result final events] in *.
  - pose proof (supervise_execs o args socks s1) as Hsup.
    destruct (supervise o args socks s1) as [r s2 e2]; cbn [events] in *.
    unfold execs in *. rewrite omap_app, Hex, app_nil_l, Hsup.
    rewrite Hentry. intros Hin.
    refine (Forall_execs _ _ c img _ Hin). apply run_spawn_images.
  - rewrite Hex. intros Hin. by apply elem_of_nil in Hin.
Qed.

(** X10. Every program is started with the command line and in the working
    directory the source gives it. The worker and the composer find their
    own cache and state directories in the environment; dnf-json is given
    none of its own and finds whatever [CACHE_DIRECTORY] and
    [STATE_DIRECTORY] the supervisor was started with: the composer's are
    assigned only after dnf-json has been started. *)
Theorem program_images o args s c img :
  (c, img) ∈ execs (events (run o args s)) →
  match c with
  | Worker =>
      im_argv img = ["/usr/libexec/osbuild-composer/osbuild-worker"; "-unix";
                     "/run/osbuild-composer/job.socket"] ∧
      im_cwd img = "/" ∧
      im_env img !! "CACHE_DIRECTORY" = Some "/var/cache/osbuild-worker" ∧
      im_env img !! "STATE_DIRECTORY" = Some "/var/lib/osbuild-worker"
  | Composer =>
      im_argv img = ["/usr/libexec/osbuild-composer/osbuild-composer"; "-verbose"] ∧
      im_cwd img = "/usr/libexec/osbuild-composer" ∧
      im_env img !! "CACHE_DIRECTORY" = Some "/var/cache/osbuild-composer" ∧
      im_env img !! "STATE_DIRECTORY" = Some "/var/lib/osbuild-composer"
  | DnfJson =>
      im_argv img = ["/usr/libexec/osbuild-composer/dnf-json"] ∧
      im_cwd img = "/usr/libexec/osbuild-composer" ∧
      im_env img !! "CACHE_DIRECTORY" = environ s !! "CACHE_DIRECTORY" ∧
      im_env img !! "STATE_DIRECTORY" = environ s !! "STATE_DIRECTORY"
  end.
Proof.
  intros Hin. apply run_program_images in Hin.
  destruct c; cbn in Hin; try done.
  destruct Hin as (Ha & Hc & Hcd & Hsd & _). rewrite Hcd, Hsd.
  pose proof (prepare_sockets_wiring o args (run_init s)) as Hw.
  unfold prepare_sockets_wired in Hw.
  destruct (result (_prepare_sockets o args (run_init s))) as [socks|x].
  - destruct Hw as (-> & _). by env_lookup.
  - by rewrite Hw.
Qed.

Lemma program_images_witness :
  ∃ img,
    (DnfJson, img) ∈ execs (events (run oracle_quiet args_full
                                      (boot (<["CACHE_DIRECTORY" := "/c"]> ∅)))) ∧
    im_env img !! "CACHE_DIRECTORY" = Some "/c" ∧
    im_env img !! "STATE_DIRECTORY" = None.
Proof.
  assert (∃ img, execs (events (run oracle_quiet args_full
                                  (boot (<["CACHE_DIRECTORY" := "/c"]> ∅)))) !! 1
                 = Some (DnfJson, img)) as [img Himg].
  { eexists. vm_compute. reflexivity. }
  apply list_elem_of_lookup_2 in Himg.
  exists img. split; [exact Himg|].
  exact (proj2 (proj2 (program_images oracle_quiet args_full
                         (boot (<["CACHE_DIRECTORY" := "/c"]> ∅))
                         DnfJson img Himg))).
Defined.

Lemma lowest_free_after_activation (n : nat) :
  n ≤ 4 → lowest_free ([0; 1; 2] ++ seq 3 n) = 3 + n.
Proof.
  intros Hn. do 5 (destruct n as [|n]; [by vm_compute|]). lia.
Qed.

(** X11. The descriptor of dnf-json. In a container started with the
    standard streams only, the socket of dnf-json is the first descriptor
    after the activation sockets: 3 plus the number of enabled activation
    sockets. This is the one descriptor dnf-json is handed and the one
    [LISTEN_FD] names. *)
Theorem dnf_json_descriptor o args env0 img :
  (DnfJson, img) ∈ execs (events (run o args (boot env0))) →
  im_pass_fds img = [3 + length (enabled_socket_names args)] ∧
  im_env img !! "LISTEN_FD"
    = Some (str (3 + length (enabled_socket_names args))).
Proof.
  intros Hin. pose proof Hin as Hrun. apply run_program_images in Hin.
  cbn in Hin. destruct Hin as (_ & _ & _ & _ & Hp & Hl). rewrite Hp, Hl.
  pose proof (prepare_sockets_wiring o args (run_init (boot env0))) as Hw.
  pose proof (prepare_sockets_post o args (run_init (boot env0))) as [Hpost _].
  unfold prepare_sockets_wired in Hw.
  destruct (result (_prepare_sockets o args (run_init (boot env0))))
    as [socks|x] eqn:Hr.
  - destruct Hw as (_ & _ & -> & _).
    destruct (Hpost socks eq_refl) as (_ & _ & -> & _).
    cbn [fdtable run_init boot set_res set_slot].
    rewrite lowest_free_after_activation; [done|].
    unfold enabled_socket_names.
    destruct (weldr_api args), (composer_api args), (local_worker_api args),
      (remote_worker_api args); cbn; lia.
  - exfalso. rewrite run_unfold in Hrun.
    pose proof (prepare_sockets_respects_R_prep o args (run_init (boot env0)))
      as (_ & _ & _ & Hex & _).
    destruct (_prepare_sockets o args (run_init (boot env0))) as [r s1 e1].
    cbn in Hr, Hex. subst r. cbn in Hrun. rewrite Hex in Hrun.
    by apply elem_of_nil in Hrun.
Qed.

Lemma dnf_json_descriptor_witness :
  ∃ img,
    (DnfJson, img) ∈ execs (events (run oracle_quiet args_full (boot ∅))) ∧
    im_pass_fds img = [5] ∧ im_env img !! "LISTEN_FD" = Some "5".
Proof.
  assert (∃ img, execs (events (run oracle_quiet args_full (boot ∅))) !! 1
                 = Some (DnfJson, img)) as [img Himg].
  { eexists. vm_compute. reflexivity. }
  apply list_elem_of_lookup_2 in Himg.
  exists img. split; [exact Himg|].
  exact (dnf_json_descriptor oracle_quiet args_full ∅ img Himg).
Defined.

(** ** Whatever the faults *)

Lemma wp_try_bind {A B} (m : M A) (k : A → M B) h s Q :
  wp m s (λ r s1 e1,
    match r with
    | Ok a => wp (try_except (k a) h) s1 (λ r2 s2 e2, Q r2 s2 (e1 ++ e2))
    | Raise x => wp (h x) s1 (λ r2 s2 e2, Q r2 s2 (e1 ++ e2))
    end) →
  wp (try_except (m ≫= k) h) s Q.
Proof.
  unfold wp, try_except, mbind, M_bind, bind.
  destruct (m s) as [[a|x] s1 e1]; cbn [result final events].
  - destruct (k a s1) as [[b|y] s2 e2]; cbn [result final events]; [done|].
    destruct (h y s2) as [r s3 e3]; cbn [result final events].
    by rewrite app_assoc.
  - by destruct (h x s1).
Qed.

Ltac started_leaf :=
  first [ exists true, true, true; do 3 eexists; split; reflexivity
        | exists true, true, false; do 3 eexists; split; reflexivity
        | exists true, false, true; do 3 eexists; split; reflexivity
        | exists true, false, false; do 3 eexists; split; reflexivity
        | exists false, true, true; do 3 eexists; split; reflexivity
        | exists false, true, false; do 3 eexists; split; reflexivity
        | exists false, false, true; do 3 eexists; split; reflexivity
        | exists false, false, false; do 3 eexists; split; reflexivity ].

(** However the first half of the [try] block ends, the local variables hold
    exactly the children started so far, none of them waited on. *)
Lemma run_spawn_started o args socks E F K :
  wp (run_spawn o args socks) (entry E F K) (λ _ s1 e1,
    ∃ w d c E' F' K',
      s1 = started o w d c E' F' K' ∧
      ptrace e1 = map Spawned (started_plan w d c)).
Proof.
  destruct args as [bw ca cap lw rw wa dj djp].
  unfold run_spawn, entry; st_simpl.
  cbn [builtin_worker composer_api local_worker_api remote_worker_api
       weldr_api dnf_json].
  match goal with |- context [any ?l] => generalize (any l) end.
  intros b; destruct b, bw, dj; st_simpl.
  all: wp_explore.
  all: started_leaf.
Qed.

Lemma cascade_supervised o w d c E F K :
  wp (try_except (run_cascade o) (run_except o)) (started o w d c E F K)
     (λ r _ e, supervised o r (map Spawned (started_plan w d c) ++ ptrace e)).
Proof.
  unfold started, started_plan, fresh_proc, run_cascade.
  destruct w, d, c; st_simpl.
  all: wp_explore.
  all: split; [reflexivity|].
  all: intros z Hz; try discriminate Hz.
  all: injection Hz as <-; by repeat split.
Qed.

Lemma handlers_supervised o x w d c E F K :
  wp (run_except o x) (started o w d c E F K)
     (λ r _ e, supervised o r (map Spawned (started_plan w d c) ++ ptrace e)).
Proof.
  unfold started, started_plan, fresh_proc.
  destruct w, d, c; st_simpl.
  all: wp_explore.
  all: split; [reflexivity|].
  all: intros z Hz; try discriminate Hz.
  all: injection Hz as <-; by repeat split.
Qed.

Lemma supervise_supervised o args socks E F K :
  supervised o (result (supervise o args socks (entry E F K)))
             (ptrace (events (supervise o args socks (entry E F K)))).
Proof.
  rewrite supervise_split.
  change (wp (try_except (run_spawn o args socks ≫= λ _, run_cascade o)
                (run_except o)) (entry E F K)
             (λ r _ e, supervised o r (ptrace e))).
  apply wp_try_bind.
  eapply wp_mono; [apply run_spawn_started|].
  intros r s1 e1 (w & d & c & E' & F' & K' & -> & Hp).
  destruct r as [[]|x].
  - eapply wp_mono; [apply cascade_supervised|].
    intros r2 s2 e2 H. by rewrite ptrace_app, Hp.
  - eapply wp_mono; [apply handlers_supervised|].
    intros r2 s2 e2 H. by rewrite ptrace_app, Hp.
Qed.

Lemma run_supervised o args s :
  supervised o (result (run o args s)) (ptrace (events (run o args s))).
Proof.
  destruct (run_cases o args s)
    as [(x & _ & -> & ->)|(socks & E & F & K & e0 & _ & -> & -> & H0)].
  - split; [done|]. intros z Hz. discriminate Hz.
  - rewrite ptrace_app, H0, app_nil_l. apply supervise_supervised.
Qed.

Lemma no_kill_sound t c : no_kill t = true → Signalled c SIGKILL ∉ t.
Proof.
  intros Hn Hin. unfold no_kill in Hn. rewrite forallb_forall in Hn.
  apply list_elem_of_In, Hn in Hin. discriminate Hin.
Qed.

Lemma reaped_true t c : reaped t c = true → ∃ z, Reaped c z ∈ t.
Proof.
  intros Hr. apply existsb_exists in Hr as ([] & Hin & Hp); try discriminate.
  apply bool_decide_eq_true in Hp as ->. apply list_elem_of_In in Hin. eauto.
Qed.

Lemma all_reaped_sound t c :
  all_reaped t = true → Spawned c ∈ t → ∃ z, Reaped c z ∈ t.
Proof.
  intros Ha Hs. apply spawned_true in Hs. apply reaped_true.
  unfold all_reaped in Ha. rewrite forallb_forall in Ha.
  assert (In c [Worker; DnfJson; Composer]) as Hc
    by (destruct c; cbn; tauto).
  apply Ha in Hc. by rewrite Hs in Hc.
Qed.

(** X12. A clean return. Whatever faults the run has met, when [run] returns
    rather than raises, every child it started has been waited on, no child
    has been killed, and the value returned is the exit status of the
    composer if one was started and 0 otherwise. *)
Theorem clean_return o args s z :
  result (run o args s) = Ok z →
  (∀ c, Signalled c SIGKILL ∉ ptrace (events (run o args s))) ∧
  (∀ c, Spawned c ∈ ptrace (events (run o args s)) →
        ∃ code, Reaped c code ∈ ptrace (events (run o args s))) ∧
  z = if spawned (ptrace (events (run o args s))) Composer
      then exit_status o Composer else 0%Z.
Proof.
  intros Hr. destruct (run_supervised o args s) as [_ H].
  destruct (H z Hr) as (Hk & Ha & Hz).
  split; [|split; [|done]].
  - intros c. by apply no_kill_sound.
  - intros c. by apply all_reaped_sound.
Qed.

Lemma clean_return_witness :
  (∀ c, Spawned c ∈ ptrace (events (run oracle_interrupt args_full (boot ∅))) →
        ∃ code, Reaped c code
                  ∈ ptrace (events (run oracle_interrupt args_full (boot ∅)))) ∧
  3%Z = if spawned (ptrace (events (run oracle_interrupt args_full (boot ∅))))
                   Composer
        then exit_status oracle_interrupt Composer else 0%Z.
Proof.
  exact (proj2 (clean_return oracle_interrupt args_full (boot ∅) 3%Z eq_refl)).
Defined.

Lemma inb_cons c c0 l : inb c (c0 :: l) = bool_decide (c0 = c) || inb c l.
Proof. done. Qed.

Lemma orderly_from_sound sp rp t :
  orderly_from sp rp t = true →
  ∀ i p, t !! i = Some p →
    match p with
    | Spawned c =>
        inb c sp = false ∧ ∀ j, j < i → t !! j ≠ Some (Spawned c)
    | Signalled c _ | Reaped c _ =>
        (inb c sp = true ∨ ∃ j, j < i ∧ t !! j = Some (Spawned c)) ∧
        inb c rp = false ∧ ∀ j z, j < i → t !! j ≠ Some (Reaped c z)
    end.
Proof.
  revert sp rp. induction t as [|h t IH]; intros sp rp Ho i p Hp; [done|].
  destruct i as [|i].
  - injection Hp as <-. cbn in Ho.
    destruct h as [c|c g|c z];
      repeat (apply andb_prop in Ho as [Ho ?]);
      repeat match goal with
             | H : negb _ = true |- _ => apply negb_true_iff in H
             end;
      repeat split; auto; intros; lia.
  - cbn in Hp. cbn in Ho.
    destruct h as [c0|c0 g0|c0 z0];
      repeat (apply andb_prop in Ho as [Ho ?]);
      match goal with
      | H : orderly_from _ _ t = true |- _ => specialize (IH _ _ H i p Hp)
      | _ => specialize (IH _ _ Ho i p Hp)
      end.
    + destruct p as [c|c g|c z]; rewrite inb_cons in IH.
      * destruct IH as [Hs Hj]. apply orb_false_elim in Hs as [Hne Hs].
        apply bool_decide_eq_false in Hne.
        split; [done|]. intros [|j] Hlt; cbn; [congruence|]. apply Hj. lia.
      * destruct IH as (Hs & Hr & Hj). split; [|split; [done|]].
        -- destruct Hs as [Hs|(j & Hlt & Hs)].
           ++ apply orb_prop in Hs as [Hs|Hs]; [|by left].
              apply bool_decide_eq_true in Hs as ->.
              right. exists 0. split; [lia|done].
           ++ right. exists (S j). split; [lia|done].
        -- intros [|j] z' Hlt; cbn; [done|]. apply Hj. lia.
      * destruct IH as (Hs & Hr & Hj). split; [|split; [done|]].
        -- destruct Hs as [Hs|(j & Hlt & Hs)].
           ++ apply orb_prop in Hs as [Hs|Hs]; [|by left].
              apply bool_decide_eq_true in Hs as ->.
              right. exists 0. split; [lia|done].
           ++ right. exists (S j). split; [lia|done].
        -- intros [|j] z' Hlt; cbn; [done|]. apply Hj. lia.
    + destruct p as [c|c g|c z].
      * destruct IH as [Hs Hj]. split; [done|].
        intros [|j] Hlt; cbn; [done|]. apply Hj. lia.
      * destruct IH as (Hs & Hr & Hj). split; [|split; [done|]].
        -- destruct Hs as [Hs|(j & Hlt & Hs)]; [by left|].
           right. exists (S j). split; [lia|done].
        -- intros [|j] z' Hlt; cbn; [done|]. apply Hj. lia.
      * destruct IH as (Hs & Hr & Hj). split; [|split; [done|]].
        -- destruct Hs as [Hs|(j & Hlt & Hs)]; [by left|].
           right. exists (S j). split; [lia|done].
        -- intros [|j] z' Hlt; cbn; [done|]. apply Hj. lia.
    + destruct p as [c|c g|c z]; try rewrite inb_cons in IH.
      * destruct IH as [Hs Hj]. split; [done|].
        intros [|j] Hlt; cbn; [done|]. apply Hj. lia.
      * destruct IH as (Hs & Hr & Hj). apply orb_false_elim in Hr as [Hne Hr].
        apply bool_decide_eq_false in Hne. split; [|split; [done|]].
        -- destruct Hs as [Hs|(j & Hlt & Hs)]; [by left|].
           right. exists (S j). split; [lia|done].
        -- intros [|j] z' Hlt; cbn; [congruence|]. apply Hj. lia.
      * destruct IH as (Hs & Hr & Hj). apply orb_false_elim in Hr as [Hne Hr].
        apply bool_decide_eq_false in Hne. split; [|split; [done|]].
        -- destruct Hs as [Hs|(j & Hlt & Hs)]; [by left|].
           right. exists (S j). split; [lia|done].
        -- intros [|j] z' Hlt; cbn; [congruence|]. apply Hj. lia.
Qed.

(** X13. Orderly lives. In every run, whatever the faults: no child is
    started twice; a signal is sent to, and a wait is made for, only a child
    that has been started before and has not been waited on before. So no
    child is waited on twice, and no signal goes to a process that has
    already been reaped. *)
Theorem orderly_lives o args s i p :
  ptrace (events (run o args s)) !! i = Some p →
  match p with
  | Spawned c =>
      ∀ j, j < i → ptrace (events (run o args s)) !! j ≠ Some (Spawned c)
  | Signalled c _ | Reaped c _ =>
      (∃ j, j < i ∧ ptrace (events (run o args s)) !! j = Some (Spawned c)) ∧
      (∀ j z, j < i → ptrace (events (run o args s)) !! j ≠ Some (Reaped c z))
  end.
Proof.
  intros Hp. destruct (run_supervised o args s) as [Ho _].
  pose proof (orderly_from_sound [] [] _ Ho i p Hp) as H.
  destruct p as [c|c g|c z].
  - tauto.
  - destruct H as ([Hs|Hs] & _ & Hj); [discriminate Hs|done].
  - destruct H as ([Hs|Hs] & _ & Hj); [discriminate Hs|done].
Qed.

Lemma orderly_lives_witness :
  (∃ j, j < 3 ∧ ptrace (events (run oracle_interrupt args_full (boot ∅))) !! j
                = Some (Spawned Worker)) ∧
  (∀ j z, j < 3 → ptrace (events (run oracle_interrupt args_full (boot ∅))) !! j
                  ≠ Some (Reaped Worker z)).
Proof.
  exact (orderly_lives oracle_interrupt args_full (boot ∅) 3
           (Signalled Worker SIGTERM) eq_refl).
Defined.

(** ** Interrupts at awkward moments *)

Section InterruptedStartup.

Variables (o : Oracle) (args : Namespace) (socks : list socket).

Variables (E : gmap string string) (F : list nat) (K : list socket).

Hypothesis Hint : fault o (at_Popen Composer) = Some KeyboardInterrupt.

Hypothesis Hquiet : ∀ p, p ≠ at_Popen Composer → fault o p = None.

Ltac startup_path :=
  idtac;
  lazymatch goal with
  | |- wp (syscall _ (at_Popen Composer) _) _ _ =>
      apply (wp_syscall_raise _ _ _ _ _ _ Hint); st_simpl
  | |- wp (syscall _ ?p _) _ _ =>
      apply (wp_syscall_ok _ p); [by apply Hquiet|]; st_simpl
  end.

Lemma supervise_interrupted_startup :
  any_api args = true →
  result (supervise o args socks (entry E F K)) = Ok 0%Z ∧
  ptrace (events (supervise o args socks (entry E F K)))
    = map Spawned (helpers args) ++
      flat_map (λ h, [Signalled h SIGTERM; Reaped h (exit_status o h)])
               (helpers args).
Proof.
  change (any_api args = true →
    wp (supervise o args socks) (entry E F K) (λ r _ e,
    r = Ok 0%Z ∧
    ptrace e = map Spawned (helpers args) ++
      flat_map (λ h, [Signalled h SIGTERM; Reaped h (exit_status o h)])
               (helpers args))).
  supervise_setup args; intros Hany; try discriminate Hany;
    wp_explore_with startup_path; by split.
Qed.

End InterruptedStartup.


Lemma oracle_early_interrupt_faults p :
  p ≠ at_Popen Composer → fault oracle_early_interrupt p = None.
Proof. intros Hp. destruct p as [| | |[]| | | | |]; done. Qed.


Lemma untouched_sound t c :
  untouched t c = true →
  (∀ g, Signalled c g ∉ t) ∧ (∀ z, Reaped c z ∉ t).
Proof.
  intros Hu. unfold untouched in Hu. rewrite forallb_forall in Hu.
  split; intros x Hin; apply list_elem_of_In, Hu in Hin;
    apply negb_true_iff, bool_decide_eq_false in Hin; done.
Qed.

Section BrokenShutdown.

Variables (o : Oracle) (args : Namespace) (socks : list socket).

Variables (E : gmap string string) (F : list nat) (K : list socket).

Hypothesis Hint : fault o (at_wait Composer) = Some KeyboardInterrupt.

Hypothesis Hquiet :
  ∀ p, interrupt_point p = false → p ≠ at_wait Composer → fault o p = None.

Ltac shutdown_path :=
  idtac;
  lazymatch goal with
  | |- wp (syscall _ (at_wait Composer) _) _ _ =>
      apply (wp_syscall_raise _ _ _ _ _ _ Hint); st_simpl
  | |- wp (syscall _ (at_int_terminate _) _) _ _ => fail
  | |- wp (syscall _ (at_int_wait _) _) _ _ => fail
  | |- wp (syscall _ ?p _) _ _ =>
      apply (wp_syscall_ok _ p); [by apply Hquiet|]; st_simpl
  end.

Lemma supervise_broken_shutdown h :
  any_api args = true →
  h ∈ helpers args →
  fault o (at_int_terminate h) ≠ None ∨ fault o (at_int_wait h) ≠ None →
  (∃ x, result (supervise o args socks (entry E F K)) = Raise x) ∧
  spawned (ptrace (events (supervise o args socks (entry E F K)))) Composer = true ∧
  untouched (ptrace (events (supervise o args socks (entry E F K)))) Composer = true ∧
  no_kill (ptrace (events (supervise o args socks (entry E F K)))) = true.
Proof.
  change (any_api args = true → h ∈ helpers args →
    fault o (at_int_terminate h) ≠ None ∨ fault o (at_int_wait h) ≠ None →
    wp (supervise o args socks) (entry E F K) (λ r _ e,
      (∃ x, r = Raise x) ∧ spawned (ptrace e) Composer = true ∧
      untouched (ptrace e) Composer = true ∧ no_kill (ptrace e) = true)).
  supervise_setup args; intros Hany Hh Hx; try discriminate Hany.
  all: cbn in Hh;
    repeat (apply elem_of_cons in Hh as [->|Hh]);
    try (by apply elem_of_nil in Hh).
  all: wp_explore_with shutdown_path.
  all: first [ by (exfalso; destruct Hx as [Hx|Hx]; apply Hx)
             | by (split; [by eexists|]) ].
Qed.

End BrokenShutdown.


Lemma oracle_two_interrupts_faults p :
  interrupt_point p = false → p ≠ at_wait Composer →
  fault oracle_two_interrupts p = None.
Proof. intros Hi Hp. destruct p as [| | | |[]| |[]|[]|]; done. Qed.

